(** * Element-wise operations of MLCommon::LinAlg (linalg/eltwise.cuh)

    A shallow embedding of the seven wrappers of [eltwise.cuh] over a small
    operational model of a device: global memory, streams holding enqueued
    kernels, and kernels executed one thread event at a time under an
    arbitrary schedule. *)

From Stdlib Require Import ZArith Lia Bool.
From Stdlib Require Import Floats.SpecFloat.
From stdpp Require Import base option list gmap.

Open Scope Z_scope.
#[local] Set Warnings "-clear-no-such-hyp".

(** ** Element types

    [math_t] is a template parameter of every wrapper.  The wrappers use
    [+], [-], [*], [/], [==] and the conversion [math_t(0.0)].  Division is
    the one operator the language leaves undefined on some operands (an
    integer divided by zero), so it is partial here. *)

Class Arith (math_t : Type) := {
  zero : math_t;
  one : math_t;
  add : math_t → math_t → math_t;
  sub : math_t → math_t → math_t;
  mul : math_t → math_t → math_t;
  div : math_t → math_t → option math_t;
  eqb : math_t → math_t → bool;
  wf : math_t → bool
}.

Declare Scope math_scope.
Delimit Scope math_scope with M.
Infix "+" := add : math_scope.
Infix "-" := sub : math_scope.
Infix "*" := mul : math_scope.
Infix "/" := div : math_scope.
Infix "==" := eqb (at level 70, no associativity) : math_scope.

(** IEEE 754 binary formats ([float] is binary32, [double] is binary64),
    round to nearest even, with a single NaN. *)
Definition ieee_arith (prec emax : Z) : Arith spec_float := {|
  zero := S754_zero false;
  one := SFone prec emax;
  add := SFadd prec emax;
  sub := SFsub prec emax;
  mul := SFmul prec emax;
  div := λ a b, Some (SFdiv prec emax a b);
  eqb := SFeqb;
  wf := valid_binary prec emax
|}.

Definition float_arith : Arith spec_float := ieee_arith 24 128.
Definition double_arith : Arith spec_float := ieee_arith 53 1024.

(** [unsigned]: 32-bit integers with wrap-around; dividing by zero is
    undefined. *)
Definition wrap32 (z : Z) : Z := z mod 2 ^ 32.

Definition unsigned_arith : Arith Z := {|
  zero := 0;
  one := 1;
  add := λ a b, wrap32 (a + b);
  sub := λ a b, wrap32 (a - b);
  mul := λ a b, wrap32 (a * b);
  div := λ a b, if b =? 0 then None else Some (a / b);
  eqb := Z.eqb;
  wf := λ a, (0 <=? a) && (a <? 2 ^ 32)
|}.

(** ** Device model

    A wrapper returns at once: it only enqueues a kernel on its stream.
    What it computes is read from global memory after the stream has
    completed.  A kernel of [len] threads runs as a sequence of events,
    a load and a later store per thread, in any order the device picks.
    The order is a parameter of the run; which threads run is not: they
    are the [k_len] threads of the kernel that was launched. *)

(** Pointers count elements, [IdxType] is the integer type of lengths and
    indices, a stream is named by a number. *)
Abbreviation ptr := Z (only parsing).
Abbreviation IdxType := Z (only parsing).
Abbreviation cudaStream_t := nat (only parsing).

Inductive event :=
  | Load (i : IdxType)
  | Store (i : IdxType).

Section Device.
Context {math_t : Type}.

(** Global memory: the allocated cells, addressed in units of elements. *)
Definition load (m : gmap ptr math_t) (p : ptr) : option math_t := m !! p.

Definition store (m : gmap ptr math_t) (p : ptr) (v : math_t)
    : option (gmap ptr math_t) :=
  match m !! p with
  | Some _ => Some (<[p := v]> m)
  | None => None
  end.

(** A kernel launched over [k_len] element indices.  Thread [i] first
    reads its operands and applies the element function ([k_compute],
    the result stays in a register), and later writes the register to
    [k_dest i]. *)
Record kernel := Kernel {
  k_len : IdxType;
  k_compute : IdxType → gmap ptr math_t → option math_t;
  k_dest : IdxType → ptr
}.

Record device := Device {
  global : gmap ptr math_t;
  streams : gmap cudaStream_t (list kernel)
}.

Definition pending (d : device) (stream : cudaStream_t) : list kernel :=
  default [] (streams d !! stream).

Definition enqueue (stream : cudaStream_t) (k : kernel) (d : device) : device :=
  Device (global d) (<[stream := pending d stream ++ [k]]> (streams d)).

(** One thread event.  [None] is a fault: an access outside the allocated
    cells, an undefined arithmetic operation, or a store by a thread that
    has loaded nothing. *)
Definition step (k : kernel) (e : event)
    (σ : gmap ptr math_t * gmap IdxType math_t)
    : option (gmap ptr math_t * gmap IdxType math_t) :=
  match e with
  | Load i => v ← k_compute k i σ.1; Some (σ.1, <[i := v]> σ.2)
  | Store i => v ← σ.2 !! i; m ← store σ.1 (k_dest k i) v; Some (m, σ.2)
  end.

Fixpoint run_events (k : kernel) (sched : list event)
    (σ : gmap ptr math_t * gmap IdxType math_t)
    : option (gmap ptr math_t * gmap IdxType math_t) :=
  match sched with
  | [] => Some σ
  | e :: sched' => σ' ← step k e σ; run_events k sched' σ'
  end.

(** Schedules.  Every index of [0, len) is loaded once and stored once,
    its load before its store; nothing else is fixed. *)
Fixpoint sched_ok (ready loaded : gset IdxType) (sched : list event) : bool :=
  match sched with
  | [] => bool_decide (ready = ∅) && bool_decide (loaded = ∅)
  | Load i :: sched' =>
      bool_decide (i ∈ ready) && sched_ok (ready ∖ {[i]}) (loaded ∪ {[i]}) sched'
  | Store i :: sched' =>
      bool_decide (i ∈ loaded) && sched_ok ready (loaded ∖ {[i]}) sched'
  end.

Definition is_schedule (len : IdxType) (sched : list event) : bool :=
  sched_ok (list_to_set (seqZ 0 len)) ∅ sched.

(** The events a kernel runs when the device is asked to follow the order
    [sched].  The threads are those of the launch, [ready] at first: an
    event of [sched] that no thread can take at that point (an index the
    kernel does not have, a second load, a store before the load) is
    passed over, and the threads that [sched] leaves unfinished run at
    the end.  So every thread of the launch runs once, whatever [sched]
    is, and a schedule of the kernel is followed as it stands. *)
Fixpoint follow (ready loaded : gset IdxType) (sched : list event) : list event :=
  match sched with
  | [] => (Store <$> elements loaded) ++ (elements ready ≫= λ i, [Load i; Store i])
  | Load i :: sched' =>
      if bool_decide (i ∈ ready)
      then Load i :: follow (ready ∖ {[i]}) (loaded ∪ {[i]}) sched'
      else follow ready loaded sched'
  | Store i :: sched' =>
      if bool_decide (i ∈ loaded)
      then Store i :: follow ready (loaded ∖ {[i]}) sched'
      else follow ready loaded sched'
  end.

Definition thread_events (len : IdxType) (sched : list event) : list event :=
  follow (list_to_set (seqZ 0 len)) ∅ sched.

(** A kernel runs the events of its own [k_len] threads. *)
Definition run_kernel (k : kernel) (sched : list event) (m : gmap ptr math_t)
    : option (gmap ptr math_t) :=
  fst <$> run_events k (thread_events (k_len k) sched) (m, ∅).

(** Stream completion: the pending kernels run in the order they were
    enqueued, kernel [n] following the [n]-th order of [scheds] (the empty
    one when [scheds] is shorter). *)
Fixpoint run_queue (q : list kernel) (scheds : list (list event))
    (m : gmap ptr math_t) : option (gmap ptr math_t) :=
  match q with
  | [] => Some m
  | k :: q' =>
      m' ← run_kernel k (default [] (head scheds)) m; run_queue q' (tail scheds) m'
  end.

Definition cudaStreamSynchronize (stream : cudaStream_t)
    (scheds : list (list event)) (d : device) : option device :=
  m ← run_queue (pending d stream) scheds (global d);
  Some (Device m (delete stream (streams d))).
End Device.

Arguments kernel : clear implicits.
Arguments device : clear implicits.

(** ** The primitives and the wrappers *)

Section Eltwise.
Context {math_t : Type} {A : Arith math_t}.

(** Modelled from the spec: [unaryOp] of unary_op.cuh, which the sources
    do not include (MapPrimitive).  It enqueues on [stream] one kernel of
    [len] independent threads; thread [i] reads [in[i]], applies [op] and
    writes [out[i]]. *)
Definition unaryOp (out in_ : ptr) (len : IdxType)
    (op : math_t → option math_t) (stream : cudaStream_t)
    : device math_t → device math_t :=
  enqueue stream
    (Kernel len (λ i m, x ← load m (in_ + i); op x) (λ i, out + i)).

(** Modelled from the spec: [binaryOp] of binary_op.cuh, which the sources
    do not include (ZipPrimitive).  As [unaryOp], but thread [i] reads
    [in1[i]] and [in2[i]]. *)
Definition binaryOp (out in1 in2 : ptr) (len : IdxType)
    (op : math_t → math_t → option math_t) (stream : cudaStream_t)
    : device math_t → device math_t :=
  enqueue stream
    (Kernel len
       (λ i m, a ← load m (in1 + i); b ← load m (in2 + i); op a b)
       (λ i, out + i)).

Definition scalarAdd (out in_ : ptr) (scalar : math_t) (len : IdxType)
    (stream : cudaStream_t) : device math_t → device math_t :=
  unaryOp out in_ len (λ in_, Some (in_ + scalar)%M) stream.

Definition scalarMultiply (out in_ : ptr) (scalar : math_t) (len : IdxType)
    (stream : cudaStream_t) : device math_t → device math_t :=
  unaryOp out in_ len (λ in_, Some (in_ * scalar)%M) stream.

Definition eltwiseAdd (out in1 in2 : ptr) (len : IdxType)
    (stream : cudaStream_t) : device math_t → device math_t :=
  binaryOp out in1 in2 len (λ a b, Some (a + b)%M) stream.

Definition eltwiseSub (out in1 in2 : ptr) (len : IdxType)
    (stream : cudaStream_t) : device math_t → device math_t :=
  binaryOp out in1 in2 len (λ a b, Some (a - b)%M) stream.

Definition eltwiseMultiply (out in1 in2 : ptr) (len : IdxType)
    (stream : cudaStream_t) : device math_t → device math_t :=
  binaryOp out in1 in2 len (λ a b, Some (a * b)%M) stream.

Definition eltwiseDivide (out in1 in2 : ptr) (len : IdxType)
    (stream : cudaStream_t) : device math_t → device math_t :=
  binaryOp out in1 in2 len (λ a b, (a / b)%M) stream.

Definition eltwiseDivideCheckZero (out in1 in2 : ptr) (len : IdxType)
    (stream : cudaStream_t) : device math_t → device math_t :=
  binaryOp out in1 in2 len
    (λ a b, if (b == zero)%M then Some zero else (a / b)%M) stream.
End Eltwise.

(** The catalog of operations, and the wrapper each name stands for.  The
    scalar operations read one buffer, the others two. *)
Inductive operation {math_t : Type} :=
  | ScalarAdd (scalar : math_t)
  | ScalarMultiply (scalar : math_t)
  | EltwiseAdd
  | EltwiseSub
  | EltwiseMultiply
  | EltwiseDivide
  | EltwiseDivideCheckZero.
Arguments operation : clear implicits.

Definition call {math_t} {A : Arith math_t} (o : operation math_t)
    (out in1 in2 : ptr) (len : IdxType) (stream : cudaStream_t)
    : device math_t → device math_t :=
  match o with
  | ScalarAdd scalar => scalarAdd out in1 scalar len stream
  | ScalarMultiply scalar => scalarMultiply out in1 scalar len stream
  | EltwiseAdd => eltwiseAdd out in1 in2 len stream
  | EltwiseSub => eltwiseSub out in1 in2 len stream
  | EltwiseMultiply => eltwiseMultiply out in1 in2 len stream
  | EltwiseDivide => eltwiseDivide out in1 in2 len stream
  | EltwiseDivideCheckZero => eltwiseDivideCheckZero out in1 in2 len stream
  end.

Definition inputs {math_t} (o : operation math_t) (in1 in2 : ptr) : list ptr :=
  match o with
  | ScalarAdd _ | ScalarMultiply _ => [in1]
  | _ => [in1; in2]
  end.

(** ** Preconditions of a call *)

(** Every cell of the buffer of [len] elements at [p] is allocated. *)
Definition allocated {math_t} (m : gmap ptr math_t) (p : ptr) (len : IdxType) : bool :=
  forallb (λ i, bool_decide (is_Some (m !! (p + i)))) (seqZ 0 len).

(** The input buffer at [inp] is the output buffer itself or does not
    overlap it. *)
Definition alias_ok (out inp : ptr) (len : IdxType) : bool :=
  (inp =? out) || (out + len <=? inp) || (inp + len <=? out).

(** Nothing is pending on the stream. *)
Definition idle {math_t} (d : device math_t) (stream : cudaStream_t) : Prop :=
  pending d stream = [].

(** ** Kernels without data races *)

(** No two threads of the kernel write the same cell, and what a thread
    computes does not depend on the cells the other threads write. *)
Definition race_free {math_t} (k : kernel math_t) : Prop :=
  (∀ i j, 0 ≤ i < k_len k → 0 ≤ j < k_len k → k_dest k i = k_dest k j → i = j) ∧
  (∀ i (m m' : gmap ptr math_t), 0 ≤ i < k_len k →
     (∀ a, (∀ j, 0 ≤ j < k_len k → j ≠ i → a ≠ k_dest k j) → m !! a = m' !! a) →
     k_compute k i m = k_compute k i m').

(** The state of a run of [k] from memory [m0] after some events: [R] are
    the indices not yet loaded, [L] those loaded and not yet stored. *)
Record run_inv {math_t} (k : kernel math_t) (m0 : gmap ptr math_t)
    (R L : gset IdxType) (σ : gmap ptr math_t * gmap IdxType math_t) : Prop := {
  inv_range : ∀ i, i ∈ R ∨ i ∈ L → 0 ≤ i < k_len k;
  inv_disj : ∀ i, i ∈ R → i ∉ L;
  inv_regs : ∀ i, i ∈ L → ∃ v, σ.2 !! i = Some v ∧ k_compute k i m0 = Some v;
  inv_done : ∀ i, 0 ≤ i < k_len k → i ∉ R → i ∉ L →
               σ.1 !! k_dest k i = k_compute k i m0;
  inv_alloc : ∀ i, 0 ≤ i < k_len k → i ∉ R → i ∉ L → is_Some (m0 !! k_dest k i);
  inv_frame : ∀ a, (∀ i, 0 ≤ i < k_len k → i ∉ R → i ∉ L → a ≠ k_dest k i) →
                σ.1 !! a = m0 !! a
}.

(** ** Postconditions *)

Definition map_post {math_t} (d d' : device math_t) (out in_ : ptr)
    (len : IdxType) (f : math_t → option math_t) : Prop :=
  ∀ i x, 0 ≤ i < len → global d !! (in_ + i) = Some x →
         global d' !! (out + i) = f x.

Definition zip_post {math_t} (d d' : device math_t) (out in1 in2 : ptr)
    (len : IdxType) (f : math_t → math_t → option math_t) : Prop :=
  ∀ i a b, 0 ≤ i < len → global d !! (in1 + i) = Some a →
           global d !! (in2 + i) = Some b → global d' !! (out + i) = f a b.

(** The cells of a buffer, in index order. *)
Definition contents {math_t} (m : gmap ptr math_t) (p : ptr) (len : IdxType)
    : list (option math_t) :=
  (λ i, m !! (p + i)) <$> seqZ 0 len.

(** ** Concrete data *)

(** The [double] nearest to [m * 2^e]. *)
Definition dbl (m e : Z) : spec_float := binary_normalize 53 1024 m e false.

(** A buffer holding the list [l] at address [p]. *)
Definition buf {math_t} (p : ptr) (l : list math_t) : gmap ptr math_t :=
  list_to_map (zip (seqZ p (Z.of_nat (length l))) l).

(** in1 = [1,2,3,4] at 0, in2 = [0,1,2,0] at 4, an output buffer at 8. *)
Definition dev0 : device spec_float :=
  Device (buf 0 [dbl 1 0; dbl 2 0; dbl 3 0; dbl 4 0] ∪
          buf 4 [dbl 0 0; dbl 1 0; dbl 2 0; dbl 0 0] ∪
          buf 8 [S754_nan; S754_nan; S754_nan; S754_nan]) ∅.

(** [unsigned] buffers: in1 = [6,7,8] at 0, in2 = [2,0,4] at 3, output at 6. *)
Definition devu : device Z :=
  Device (buf 0 [6; 7; 8] ∪ buf 3 [2; 0; 4] ∪ buf 6 [0; 0; 0]) ∅.

(** [unsigned] buffers: [1,2,3] at 0 and [10,10,10] at 3. *)
Definition devo : device Z :=
  Device (buf 0 [1; 2; 3] ∪ buf 3 [10; 10; 10]) ∅.

Definition schedu : list event :=
  [Load 2; Load 1; Load 0; Store 1; Store 0; Store 2].

(** The result of eltwiseDivideCheckZero(8, 0, 4, 4) on [dev0]. *)
Definition dev0_checked : device spec_float :=
  Device (buf 0 [dbl 1 0; dbl 2 0; dbl 3 0; dbl 4 0] ∪
          buf 4 [dbl 0 0; dbl 1 0; dbl 2 0; dbl 0 0] ∪
          buf 8 [dbl 0 0; dbl 2 0; dbl 3 (-1); dbl 0 0]) ∅.



(** in = [-0.0, NaN] at 0, an output buffer at 2. *)
Definition devz : device spec_float :=
  Device (buf 0 [S754_zero true; S754_nan] ∪ buf 2 [dbl 5 0; dbl 5 0]) ∅.

Definition schedz : list event := [Load 1; Load 0; Store 0; Store 1].

Definition sched0 : list event :=
  [Load 3; Load 0; Store 0; Load 1; Load 2; Store 2; Store 3; Store 1].

Definition sched1 : list event :=
  [Load 0; Store 0; Load 1; Store 1; Load 2; Store 2; Load 3; Store 3].

(** ** Statements about a wrapper as a whole *)

(** Swapping the two input buffers of [f] does not change the memory it
    leaves. *)
Definition swap_invariant {math_t}
    (f : ptr → ptr → ptr → IdxType → cudaStream_t →
         device math_t → device math_t) : Prop :=
  ∀ d out in1 in2 len stream sched1 sched2,
    idle d stream →
    allocated (global d) out len = true →
    allocated (global d) in1 len = true →
    allocated (global d) in2 len = true →
    alias_ok out in1 len = true → alias_ok out in2 len = true →
    ∃ d1 d2,
      cudaStreamSynchronize stream [sched1] (f out in1 in2 len stream d) = Some d1 ∧
      cudaStreamSynchronize stream [sched2] (f out in2 in1 len stream d) = Some d2 ∧
      global d1 = global d2.

(** scalarAdd with the scalar [zero] and scalarMultiply with the scalar
    [one] return every input element as it is. *)
Definition scalar_identity {math_t} (A : Arith math_t) : Prop :=
  ∀ (d : device math_t) out in_ len stream sched,
    idle d stream →
    allocated (global d) out len = true →
    allocated (global d) in_ len = true →
    alias_ok out in_ len = true →
    (∀ i x, 0 ≤ i < len → global d !! (in_ + i) = Some x → wf x = true) →
    (∃ d', cudaStreamSynchronize stream [sched]
             (scalarAdd out in_ zero len stream d) = Some d' ∧
           map_post d d' out in_ len Some) ∧
    (∃ d', cudaStreamSynchronize stream [sched]
             (scalarMultiply out in_ one len stream d) = Some d' ∧
           map_post d d' out in_ len Some).

(** ** Further preconditions and data *)

(** The buffers of [len] elements at [p] and [q] share no cell. *)
Definition disjoint (p q : ptr) (len : IdxType) : bool :=
  (p + len <=? q) || (q + len <=? p).

(** Every cell of the memory holds a representable value. *)
Definition all_wf {math_t} {A : Arith math_t} (m : gmap ptr math_t) : Prop :=
  map_Forall (λ _ v, wf v = true) m.

(** The scalar an operation captures, if any, is representable. *)
Definition scalar_wf {math_t} {A : Arith math_t} (o : operation math_t) : bool :=
  match o with
  | ScalarAdd scalar | ScalarMultiply scalar => wf scalar
  | _ => true
  end.

(** Neither NaN nor an infinity. *)
Definition is_finite (x : spec_float) : bool :=
  match x with
  | S754_zero _ | S754_finite _ _ _ => true
  | _ => false
  end.

(** The language gives [x / 0] no meaning for an integer [x]; what a run
    then yields is not the code's to say.  [div0] stands for it: dividing
    [a] by zero yields [div0 a], nothing where that is [None].
    [unsigned_arith] is the case where it never yields anything. *)
Definition unsigned_arith_with (div0 : Z → option Z) : Arith Z := {|
  zero := 0;
  one := 1;
  add := λ a b, wrap32 (a + b);
  sub := λ a b, wrap32 (a - b);
  mul := λ a b, wrap32 (a * b);
  div := λ a b, if b =? 0 then div0 a else Some (a / b);
  eqb := Z.eqb;
  wf := λ a, (0 <=? a) && (a <? 2 ^ 32)
|}.

(** The result of eltwiseSub(6, 3, 0, 3) on [devu]. *)
Definition devu_sub : device Z :=
  Device (buf 0 [6; 7; 8] ∪ buf 3 [2; 0; 4] ∪
          buf 6 [4294967292; 4294967289; 4294967292]) ∅.

(** [unsigned] buffers with values at the top of the range: [2^32 - 1, 7, 0]
    at 0, [1, 2, 3] at 3, two spare buffers at 6 and 9. *)
Definition devw : device Z :=
  Device (buf 0 [4294967295; 7; 0] ∪ buf 3 [1; 2; 3] ∪
          buf 6 [0; 0; 0] ∪ buf 9 [0; 0; 0]) ∅.

(** * Properties *)

(** ** The events of a launch *)

Lemma sched_ok_stores (l : list Z) : ∀ (R L : gset Z) rest,
  NoDup l → (∀ i, i ∈ l ↔ i ∈ L) →
  sched_ok R L ((Store <$> l) ++ rest) = sched_ok R ∅ rest.
Proof.
  induction l as [|i l IH]; intros R L rest Hnd HL; simpl.
  - f_equal. apply set_eq. set_solver.
  - apply NoDup_cons in Hnd as [Hi Hnd].
    rewrite bool_decide_eq_true_2 by (apply HL; set_solver). simpl.
    apply IH; [done|]. intros j. rewrite elem_of_difference, <- HL. set_solver.
Qed.

Lemma sched_ok_pairs (l : list Z) : ∀ (R : gset Z),
  NoDup l → (∀ i, i ∈ l ↔ i ∈ R) →
  sched_ok R ∅ (l ≫= λ i, [Load i; Store i]) = true.
Proof.
  induction l as [|i l IH]; intros R Hnd HR; simpl.
  - apply andb_true_iff. split; [|done].
    apply bool_decide_eq_true, set_eq. set_solver.
  - apply NoDup_cons in Hnd as [Hi Hnd].
    rewrite bool_decide_eq_true_2 by (apply HR; set_solver). simpl.
    rewrite bool_decide_eq_true_2 by set_solver. simpl.
    replace ((∅ ∪ {[i]}) ∖ {[i]} : gset Z) with (∅ : gset Z)
      by (apply set_eq; set_solver).
    apply IH; [done|]. intros j. rewrite elem_of_difference, <- HR. set_solver.
Qed.

(** Whatever order is asked for, the events run are a schedule. *)
Lemma follow_ok sched : ∀ R L : gset Z, sched_ok R L (follow R L sched) = true.
Proof.
  induction sched as [|[i|i] sched IH]; intros R L; simpl.
  - rewrite (sched_ok_stores (elements L) R L);
      [|apply NoDup_elements|intros i; apply elem_of_elements].
    apply sched_ok_pairs; [apply NoDup_elements|intros i; apply elem_of_elements].
  - case_bool_decide; [simpl|done].
    rewrite bool_decide_eq_true_2 by done. by simpl.
  - case_bool_decide; [simpl|done].
    rewrite bool_decide_eq_true_2 by done. by simpl.
Qed.

(** A schedule is followed as it stands. *)
Lemma follow_id sched : ∀ R L : gset Z,
  sched_ok R L sched = true → follow R L sched = sched.
Proof.
  induction sched as [|[i|i] sched IH]; intros R L; simpl.
  - intros [-> ->]%andb_true_iff%(and_iff_compat_l _ (bool_decide_eq_true _))
                   %(and_iff_compat_r _ (bool_decide_eq_true _)).
    by rewrite elements_empty.
  - intros [Hi Hok]%andb_true_iff. rewrite Hi. f_equal. by apply IH.
  - intros [Hi Hok]%andb_true_iff. rewrite Hi. f_equal. by apply IH.
Qed.

Lemma thread_events_ok len sched : is_schedule len (thread_events len sched) = true.
Proof. apply follow_ok. Qed.

Lemma thread_events_id len sched :
  is_schedule len sched = true → thread_events len sched = sched.
Proof. apply follow_id. Qed.

Lemma thread_events_none len sched : len ≤ 0 → thread_events len sched = [].
Proof.
  intros Hlen. unfold thread_events. rewrite seqZ_nil by lia. simpl.
  induction sched as [|[i|i] sched IH]; simpl; [done|..];
    by rewrite bool_decide_eq_false_2 by set_solver.
Qed.

Section KernelRuns.
Context {math_t : Type}.
Variable k : kernel math_t.
Variable m0 : gmap ptr math_t.
Hypothesis Hrf : race_free k.

Lemma run_inv_init : run_inv k m0 (list_to_set (seqZ 0 (k_len k))) ∅ (m0, ∅).
Proof.
  split; simpl.
  - intros i [Hi|Hi]; [|set_solver].
    apply elem_of_list_to_set, elem_of_seqZ in Hi. lia.
  - set_solver.
  - set_solver.
  - intros i Hi Hn _. exfalso. apply Hn.
    apply elem_of_list_to_set, elem_of_seqZ. lia.
  - intros i Hi Hn _. exfalso. apply Hn.
    apply elem_of_list_to_set, elem_of_seqZ. lia.
  - done.
Qed.

Lemma compute_stable R L σ i :
  run_inv k m0 R L σ → i ∈ R → k_compute k i σ.1 = k_compute k i m0.
Proof.
  intros Hinv Hi. destruct Hrf as [_ Hloc].
  apply Hloc; [apply (inv_range _ _ _ _ _ Hinv); auto|].
  intros a Ha. apply (inv_frame _ _ _ _ _ Hinv).
  intros j Hj HjR _. apply Ha; [done|]. intros ->. done.
Qed.

Lemma run_inv_load R L σ i v :
  run_inv k m0 R L σ → i ∈ R → k_compute k i m0 = Some v →
  run_inv k m0 (R ∖ {[i]}) (L ∪ {[i]}) (σ.1, <[i := v]> σ.2).
Proof.
  intros Hinv Hi Hv. split; simpl.
  - intros j Hj. apply (inv_range _ _ _ _ _ Hinv). set_solver.
  - intros j Hj. pose proof (inv_disj _ _ _ _ _ Hinv j). set_solver.
  - intros j Hj. destruct (decide (j = i)) as [->|Hne].
    + exists v. by rewrite lookup_insert_eq.
    + rewrite lookup_insert_ne by done.
      apply (inv_regs _ _ _ _ _ Hinv). set_solver.
  - intros j Hj HjR HjL. apply (inv_done _ _ _ _ _ Hinv); [done| |set_solver].
    intros HR. apply HjR. apply elem_of_difference. split; [done|].
    set_solver.
  - intros j Hj HjR HjL. apply (inv_alloc _ _ _ _ _ Hinv); [done| |set_solver].
    intros HR. apply HjR. apply elem_of_difference. split; [done|].
    set_solver.
  - intros a Ha. apply (inv_frame _ _ _ _ _ Hinv).
    intros j Hj HjR HjL. apply Ha; [done| |].
    + set_solver.
    + intros [?| ->%elem_of_singleton]%elem_of_union; done.
Qed.

Lemma run_inv_store R L σ i :
  run_inv k m0 R L σ → i ∈ L → is_Some (m0 !! k_dest k i) →
  ∃ σ', step k (Store i) σ = Some σ' ∧ run_inv k m0 R (L ∖ {[i]}) σ'.
Proof.
  intros Hinv Hi [w Hw]. destruct Hrf as [Hinj _].
  destruct (inv_regs _ _ _ _ _ Hinv i Hi) as (v & Hreg & Hv).
  assert (Hir : 0 ≤ i < k_len k) by (apply (inv_range _ _ _ _ _ Hinv); auto).
  assert (Hcell : σ.1 !! k_dest k i = Some w).
  { rewrite <- Hw. apply (inv_frame _ _ _ _ _ Hinv).
    intros j Hj _ HjL Heq. apply Hinj in Heq; [|done..]. by subst. }
  exists (<[k_dest k i := v]> σ.1, σ.2). split.
  { unfold step, store. rewrite Hreg. simpl. by rewrite Hcell. }
  split; simpl.
  - intros j Hj. apply (inv_range _ _ _ _ _ Hinv). set_solver.
  - intros j Hj. pose proof (inv_disj _ _ _ _ _ Hinv j). set_solver.
  - intros j Hj. apply (inv_regs _ _ _ _ _ Hinv). set_solver.
  - intros j Hj HjR HjL. destruct (decide (j = i)) as [->|Hne].
    + by rewrite lookup_insert_eq.
    + rewrite lookup_insert_ne.
      * apply (inv_done _ _ _ _ _ Hinv); [done..|set_solver].
      * intros Heq. apply Hinj in Heq; [|done..]. by subst.
  - intros j Hj HjR HjL. destruct (decide (j = i)) as [->|Hne]; [by eauto|].
    apply (inv_alloc _ _ _ _ _ Hinv); [done..|set_solver].
  - intros a Ha. rewrite lookup_insert_ne.
    + apply (inv_frame _ _ _ _ _ Hinv). intros j Hj HjR HjL.
      apply Ha; [done..|set_solver].
    + intros <-. apply (Ha i); [done| |set_solver | done].
      intros HR. by apply (inv_disj _ _ _ _ _ Hinv i).
Qed.

Lemma run_events_ok sched : ∀ R L σ,
  sched_ok R L sched = true → run_inv k m0 R L σ →
  (∀ i, 0 ≤ i < k_len k → is_Some (k_compute k i m0)) →
  (∀ i, 0 ≤ i < k_len k → is_Some (m0 !! k_dest k i)) →
  ∃ σ', run_events k sched σ = Some σ' ∧ run_inv k m0 ∅ ∅ σ'.
Proof.
  induction sched as [|[i|i] sched IH]; intros R L σ Hok Hinv Hdef Hall; simpl in *.
  - apply andb_true_iff in Hok as [HR HL].
    apply bool_decide_eq_true in HR, HL. subst. eauto.
  - apply andb_true_iff in Hok as [Hi Hok]. apply bool_decide_eq_true in Hi.
    rewrite (compute_stable R L σ i Hinv Hi).
    destruct (Hdef i) as [v Hv]; [apply (inv_range _ _ _ _ _ Hinv); auto|].
    rewrite Hv. simpl. eapply IH; eauto using run_inv_load.
  - apply andb_true_iff in Hok as [Hi Hok]. apply bool_decide_eq_true in Hi.
    destruct (run_inv_store R L σ i Hinv Hi) as (σ' & Hst & Hinv').
    { apply Hall, (inv_range _ _ _ _ _ Hinv); auto. }
    unfold step in Hst. rewrite Hst. simpl. eapply IH; eauto.
Qed.

Lemma step_load_inv R L σ σ' i :
  run_inv k m0 R L σ → i ∈ R → step k (Load i) σ = Some σ' →
  run_inv k m0 (R ∖ {[i]}) (L ∪ {[i]}) σ'.
Proof.
  intros Hinv Hi. unfold step.
  rewrite (compute_stable R L σ i Hinv Hi).
  destruct (k_compute k i m0) as [v|] eqn:Hv; [simpl|done].
  intros [= <-]. by apply run_inv_load.
Qed.

Lemma step_store_inv R L σ σ' i :
  run_inv k m0 R L σ → i ∈ L → step k (Store i) σ = Some σ' →
  run_inv k m0 R (L ∖ {[i]}) σ'.
Proof.
  intros Hinv Hi Hstep.
  destruct (run_inv_store R L σ i Hinv Hi) as (σ'' & Hstep' & Hinv').
  - unfold step, store in Hstep.
    destruct (σ.2 !! i) as [v|]; [simpl in Hstep|done].
    destruct (σ.1 !! k_dest k i) as [w|] eqn:Hw; [|done].
    exists w. rewrite <- Hw. symmetry. apply (inv_frame _ _ _ _ _ Hinv).
    intros l Hl _ HlL Heq. destruct Hrf as [Hinj _].
    apply Hinj in Heq; [by subst| |done].
    apply (inv_range _ _ _ _ _ Hinv); auto.
  - congruence.
Qed.

Lemma step_inv R L σ σ' e sched :
  run_inv k m0 R L σ → sched_ok R L (e :: sched) = true →
  step k e σ = Some σ' →
  ∃ R' L', sched_ok R' L' sched = true ∧ run_inv k m0 R' L' σ' ∧
           (∀ i, i ∈ R → e ≠ Load i → i ∈ R').
Proof.
  intros Hinv Hok Hstep. destruct e as [i|i]; simpl in Hok;
    apply andb_true_iff in Hok as [Hi Hok]; apply bool_decide_eq_true in Hi.
  - exists (R ∖ {[i]}), (L ∪ {[i]}). split_and!; eauto using step_load_inv.
    intros j Hj Hne. apply elem_of_difference. split; [done|].
    intros ->%elem_of_singleton. done.
  - exists R, (L ∖ {[i]}). split_and!; eauto using step_store_inv.
Qed.

Lemma run_events_sound sched : ∀ R L σ σ',
  sched_ok R L sched = true → run_inv k m0 R L σ →
  run_events k sched σ = Some σ' → run_inv k m0 ∅ ∅ σ'.
Proof.
  induction sched as [|e sched IH]; intros R L σ σ' Hok Hinv Hrun.
  - simpl in *. apply andb_true_iff in Hok as [HR HL].
    apply bool_decide_eq_true in HR, HL. by simplify_eq.
  - cbn [run_events] in Hrun.
    destruct (step k e σ) as [σ1|] eqn:Hstep; [simpl in Hrun|done].
    destruct (step_inv R L σ σ1 e sched) as (R' & L' & ? & ? & _); eauto.
Qed.

Lemma run_events_fault sched : ∀ R L σ i,
  sched_ok R L sched = true → run_inv k m0 R L σ →
  i ∈ R → k_compute k i m0 = None →
  run_events k sched σ = None.
Proof.
  induction sched as [|e sched IH]; intros R L σ i Hok Hinv Hi Hnone.
  - simpl in *. apply andb_true_iff in Hok as [HR _].
    apply bool_decide_eq_true in HR. set_solver.
  - cbn [run_events].
    destruct (step k e σ) as [σ1|] eqn:Hstep; [simpl|done].
    destruct (step_inv R L σ σ1 e sched) as (R' & L' & ? & ? & Hkeep); eauto.
    apply (IH R' L' σ1 i); [done..| |done].
    apply Hkeep; [done|]. intros ->. unfold step in Hstep.
    rewrite (compute_stable R L σ i Hinv Hi), Hnone in Hstep. done.
Qed.

(** Under a schedule of the kernel the run is that of the schedule; under
    any other order it is the run of the schedule that order is turned
    into. *)
Lemma run_kernel_schedule sched :
  is_schedule (k_len k) sched = true →
  run_kernel k sched m0 = fst <$> run_events k sched (m0, ∅).
Proof. intros Hs. unfold run_kernel. by rewrite thread_events_id. Qed.

Lemma run_kernel_ok sched :
  (∀ i, 0 ≤ i < k_len k → is_Some (k_compute k i m0)) →
  (∀ i, 0 ≤ i < k_len k → is_Some (m0 !! k_dest k i)) →
  ∃ m, run_kernel k sched m0 = Some m ∧
    (∀ i, 0 ≤ i < k_len k → m !! k_dest k i = k_compute k i m0) ∧
    (∀ a, (∀ i, 0 ≤ i < k_len k → a ≠ k_dest k i) → m !! a = m0 !! a).
Proof.
  intros Hdef Hall.
  destruct (run_events_ok (thread_events (k_len k) sched) _ _ _
              (thread_events_ok _ _) run_inv_init Hdef Hall)
    as ([m r] & Hrun & Hinv).
  exists m. unfold run_kernel. rewrite Hrun. split; [done|]. split.
  - intros i Hi. apply (inv_done _ _ _ _ _ Hinv i Hi); set_solver.
  - intros a Ha. apply (inv_frame _ _ _ _ _ Hinv). intros i Hi _ _. by apply Ha.
Qed.

Lemma run_kernel_sound sched m :
  run_kernel k sched m0 = Some m →
  (∀ i, 0 ≤ i < k_len k → m !! k_dest k i = k_compute k i m0) ∧
  (∀ a, (∀ i, 0 ≤ i < k_len k → a ≠ k_dest k i) → m !! a = m0 !! a).
Proof.
  intros Hrun. unfold run_kernel in Hrun.
  destruct (run_events k _ (m0, ∅)) as [[m' r]|] eqn:Hev; [|done].
  simpl in Hrun. injection Hrun as ->.
  pose proof (run_events_sound _ _ _ _ _ (thread_events_ok _ _) run_inv_init Hev)
    as Hinv.
  split.
  - intros i Hi. apply (inv_done _ _ _ _ _ Hinv i Hi); set_solver.
  - intros a Ha. apply (inv_frame _ _ _ _ _ Hinv). intros i Hi _ _. by apply Ha.
Qed.

Lemma run_kernel_fault sched i :
  0 ≤ i < k_len k → k_compute k i m0 = None →
  run_kernel k sched m0 = None.
Proof.
  intros Hi Hnone. unfold run_kernel.
  rewrite (run_events_fault _ _ _ _ i (thread_events_ok _ _) run_inv_init);
    [done| |done].
  apply elem_of_list_to_set, elem_of_seqZ. lia.
Qed.

(** A run that completes has faulted nowhere: every thread's operands
    and destination were there from the start. *)
Lemma run_kernel_defined sched m :
  run_kernel k sched m0 = Some m →
  ∀ i, 0 ≤ i < k_len k →
    is_Some (k_compute k i m0) ∧ is_Some (m0 !! k_dest k i).
Proof.
  intros Hrun i Hi. split.
  - destruct (k_compute k i m0) eqn:Hc; [done|].
    rewrite (run_kernel_fault sched i Hi Hc) in Hrun. done.
  - unfold run_kernel in Hrun.
    destruct (run_events k _ (m0, ∅)) as [σ|] eqn:Hev; [|done].
    pose proof (run_events_sound _ _ _ _ _ (thread_events_ok _ _) run_inv_init Hev)
      as Hinv.
    apply (inv_alloc _ _ _ _ _ Hinv i Hi); set_solver.
Qed.

Lemma dest_dec a :
  (∃ i, 0 ≤ i < k_len k ∧ a = k_dest k i) ∨
  (∀ i, 0 ≤ i < k_len k → a ≠ k_dest k i).
Proof.
  destruct (decide (Exists (λ i, a = k_dest k i) (seqZ 0 (k_len k)))) as [H|H].
  - left. apply Exists_exists in H as (i & Hi%elem_of_seqZ & ->).
    exists i. split; [lia|done].
  - right. intros i Hi ->. apply H, Exists_exists.
    exists i. split; [apply elem_of_seqZ; lia|done].
Qed.

End KernelRuns.

Section Primitives.
Context {math_t : Type}.
Implicit Types (d : device math_t) (m : gmap ptr math_t).

Lemma allocated_spec m p len :
  allocated m p len = true ↔ ∀ i, 0 ≤ i < len → is_Some (m !! (p + i)).
Proof.
  unfold allocated. rewrite forallb_forall. split.
  - intros H i Hi. eapply bool_decide_eq_true, H, list_elem_of_In, elem_of_seqZ. lia.
  - intros H i Hi%list_elem_of_In%elem_of_seqZ. apply bool_decide_eq_true, H. lia.
Qed.

Lemma alias_ok_spec out inp len i j :
  alias_ok out inp len = true → 0 ≤ i < len → 0 ≤ j < len →
  inp + i = out + j → i = j.
Proof. unfold alias_ok. intros H Hi Hj Heq. lia. Qed.

Lemma pending_enqueue d stream (k : kernel math_t) :
  pending (enqueue stream k d) stream = pending d stream ++ [k].
Proof. unfold pending at 1, enqueue. simpl. by rewrite lookup_insert_eq. Qed.

(** Completing an idle stream after one launch runs that kernel. *)
Lemma sync_enqueue d stream (k : kernel math_t) sched :
  idle d stream →
  cudaStreamSynchronize stream [sched] (enqueue stream k d) =
    (m ← run_kernel k sched (global d);
     Some (Device m (delete stream (streams (enqueue stream k d))))).
Proof.
  intros Hidle. unfold cudaStreamSynchronize.
  rewrite pending_enqueue, Hidle. simpl.
  by destruct (run_kernel k sched (global d)).
Qed.

Lemma idle_after_sync d d' stream scheds :
  cudaStreamSynchronize stream scheds d = Some d' → idle d' stream.
Proof.
  unfold cudaStreamSynchronize, idle, pending.
  destruct (run_queue _ _ _); [simpl|done]. intros [= <-]. simpl.
  by rewrite lookup_delete_eq.
Qed.

Lemma launch_ok d stream (k : kernel math_t) sched :
  idle d stream → race_free k →
  (∀ i, 0 ≤ i < k_len k → is_Some (k_compute k i (global d))) →
  (∀ i, 0 ≤ i < k_len k → is_Some (global d !! k_dest k i)) →
  ∃ d', cudaStreamSynchronize stream [sched] (enqueue stream k d) = Some d' ∧
    (∀ i, 0 ≤ i < k_len k → global d' !! k_dest k i = k_compute k i (global d)) ∧
    (∀ a, (∀ i, 0 ≤ i < k_len k → a ≠ k_dest k i) → global d' !! a = global d !! a).
Proof.
  intros Hidle Hrf Hdef Hall.
  destruct (run_kernel_ok k (global d) Hrf sched Hdef Hall) as (m & Hrun & ? & ?).
  rewrite sync_enqueue, Hrun by done. simpl. eauto.
Qed.

Lemma launch_sound d d' stream (k : kernel math_t) sched :
  idle d stream → race_free k →
  cudaStreamSynchronize stream [sched] (enqueue stream k d) = Some d' →
  (∀ i, 0 ≤ i < k_len k → global d' !! k_dest k i = k_compute k i (global d)) ∧
  (∀ a, (∀ i, 0 ≤ i < k_len k → a ≠ k_dest k i) → global d' !! a = global d !! a).
Proof.
  intros Hidle Hrf. rewrite sync_enqueue by done.
  destruct (run_kernel k sched (global d)) as [m|] eqn:Hrun; [simpl|done].
  intros [= <-]. simpl. by apply (run_kernel_sound k (global d) Hrf sched).
Qed.

Lemma launch_fault d stream (k : kernel math_t) sched i :
  idle d stream → race_free k →
  0 ≤ i < k_len k → k_compute k i (global d) = None →
  cudaStreamSynchronize stream [sched] (enqueue stream k d) = None.
Proof.
  intros Hidle Hrf Hi Hnone. rewrite sync_enqueue by done.
  by rewrite (run_kernel_fault k (global d) Hrf sched i).
Qed.


Lemma binaryOp_race_free out in1 in2 len (op : math_t → math_t → option math_t) :
  alias_ok out in1 len = true → alias_ok out in2 len = true →
  race_free (Kernel len
    (λ i m, a ← load m (in1 + i); b ← load m (in2 + i); op a b) (λ i, out + i)).
Proof.
  intros H1 H2. split; simpl.
  - intros i j _ _ ?. lia.
  - intros i m m' Hi Hag. unfold load.
    rewrite (Hag (in1 + i)), (Hag (in2 + i)); [done|..];
      intros j Hj Hne Heq; apply Hne; symmetry;
      eauto using alias_ok_spec.
Qed.

Lemma unaryOp_race_free out in_ len (op : math_t → option math_t) :
  alias_ok out in_ len = true →
  race_free (Kernel len (λ i m, x ← load m (in_ + i); op x) (λ i, out + i)).
Proof.
  intros H1. split; simpl.
  - intros i j _ _ ?. lia.
  - intros i m m' Hi Hag. unfold load.
    rewrite (Hag (in_ + i)); [done|].
    intros j Hj Hne Heq; apply Hne; symmetry; eauto using alias_ok_spec.
Qed.

(** The zip contract: under any schedule the call completes and
    [out[i]] is [op in1[i] in2[i]]; no other cell changes. *)
Lemma binaryOp_ok d out in1 in2 len (op : math_t → math_t → option math_t)
    stream sched :
  idle d stream →
  allocated (global d) out len = true →
  allocated (global d) in1 len = true →
  allocated (global d) in2 len = true →
  alias_ok out in1 len = true → alias_ok out in2 len = true →
  (∀ i a b, 0 ≤ i < len → global d !! (in1 + i) = Some a →
     global d !! (in2 + i) = Some b → is_Some (op a b)) →
  ∃ d', cudaStreamSynchronize stream [sched]
          (binaryOp out in1 in2 len op stream d) = Some d' ∧
    (∀ i a b, 0 ≤ i < len → global d !! (in1 + i) = Some a →
       global d !! (in2 + i) = Some b → global d' !! (out + i) = op a b) ∧
    (∀ p, ¬ (out ≤ p < out + len) → global d' !! p = global d !! p).
Proof.
  intros Hidle Ho H1 H2 Ha1 Ha2 Hdef.
  rewrite allocated_spec in Ho, H1, H2.
  destruct (launch_ok d stream _ sched Hidle
              (binaryOp_race_free out in1 in2 len op Ha1 Ha2))
    as (d' & Hsync & Hout & Hframe); simpl.
  - intros i Hi. unfold load.
    destruct (H1 i Hi) as [a Ha], (H2 i Hi) as [b Hb].
    rewrite Ha, Hb. simpl. eauto.
  - auto.
  - simpl in Hout, Hframe. exists d'. split; [done|]. split.
    + intros i a b Hi Ha Hb. rewrite (Hout i Hi). unfold load.
      by rewrite Ha, Hb.
    + intros p Hp. apply Hframe. intros i Hi. lia.
Qed.

Lemma binaryOp_sound d d' out in1 in2 len (op : math_t → math_t → option math_t)
    stream sched :
  idle d stream →
  alias_ok out in1 len = true → alias_ok out in2 len = true →
  cudaStreamSynchronize stream [sched]
    (binaryOp out in1 in2 len op stream d) = Some d' →
  (∀ i, 0 ≤ i < len → global d' !! (out + i) =
     (a ← global d !! (in1 + i); b ← global d !! (in2 + i); op a b)) ∧
  (∀ p, ¬ (out ≤ p < out + len) → global d' !! p = global d !! p).
Proof.
  intros Hidle Ha1 Ha2 Hsync.
  destruct (launch_sound d d' stream _ sched Hidle
              (binaryOp_race_free out in1 in2 len op Ha1 Ha2) Hsync)
    as [Hout Hframe]; simpl in *.
  split; [done|]. intros p Hp. apply Hframe. intros i Hi. lia.
Qed.

Lemma binaryOp_fault d out in1 in2 len (op : math_t → math_t → option math_t)
    stream sched i :
  idle d stream →
  alias_ok out in1 len = true → alias_ok out in2 len = true →
  0 ≤ i < len →
  (a ← global d !! (in1 + i); b ← global d !! (in2 + i); op a b) = None →
  cudaStreamSynchronize stream [sched]
    (binaryOp out in1 in2 len op stream d) = None.
Proof.
  intros Hidle Ha1 Ha2 Hi Hnone.
  by apply (launch_fault d stream _ sched i Hidle
              (binaryOp_race_free out in1 in2 len op Ha1 Ha2)).
Qed.

(** The map contract. *)
Lemma unaryOp_ok d out in_ len (op : math_t → option math_t) stream sched :
  idle d stream →
  allocated (global d) out len = true →
  allocated (global d) in_ len = true →
  alias_ok out in_ len = true →
  (∀ i x, 0 ≤ i < len → global d !! (in_ + i) = Some x → is_Some (op x)) →
  ∃ d', cudaStreamSynchronize stream [sched]
          (unaryOp out in_ len op stream d) = Some d' ∧
    (∀ i x, 0 ≤ i < len → global d !! (in_ + i) = Some x →
       global d' !! (out + i) = op x) ∧
    (∀ p, ¬ (out ≤ p < out + len) → global d' !! p = global d !! p).
Proof.
  intros Hidle Ho H1 Ha1 Hdef.
  rewrite allocated_spec in Ho, H1.
  destruct (launch_ok d stream _ sched Hidle
              (unaryOp_race_free out in_ len op Ha1))
    as (d' & Hsync & Hout & Hframe); simpl.
  - intros i Hi. unfold load.
    destruct (H1 i Hi) as [a Ha]. rewrite Ha. simpl. eauto.
  - auto.
  - simpl in Hout, Hframe. exists d'. split; [done|]. split.
    + intros i a Hi Ha. rewrite (Hout i Hi). unfold load. by rewrite Ha.
    + intros p Hp. apply Hframe. intros i Hi. lia.
Qed.

Lemma unaryOp_sound d d' out in_ len (op : math_t → option math_t) stream sched :
  idle d stream →
  alias_ok out in_ len = true →
  cudaStreamSynchronize stream [sched] (unaryOp out in_ len op stream d) = Some d' →
  (∀ i, 0 ≤ i < len → global d' !! (out + i) = (x ← global d !! (in_ + i); op x)) ∧
  (∀ p, ¬ (out ≤ p < out + len) → global d' !! p = global d !! p).
Proof.
  intros Hidle Ha1 Hsync.
  destruct (launch_sound d d' stream _ sched Hidle
              (unaryOp_race_free out in_ len op Ha1) Hsync)
    as [Hout Hframe]; simpl in *.
  split; [done|]. intros p Hp. apply Hframe. intros i Hi. lia.
Qed.
End Primitives.

(** ** Facts of the element types *)

Section IEEE.
Lemma SFadd_comm prec emax x y : SFadd prec emax x y = SFadd prec emax y x.
Proof.
  destruct x as [[]|[]| |sx mx ex], y as [[]|[]| |sy my ey]; try reflexivity.
  unfold SFadd. rewrite (Z.min_comm ey ex). f_equal. apply Z.add_comm.
Qed.

Lemma SFmul_comm prec emax x y : SFmul prec emax x y = SFmul prec emax y x.
Proof.
  destruct x as [sx|sx| |sx mx ex], y as [sy|sy| |sy my ey]; simpl;
    try reflexivity; try (f_equal; apply xorb_comm).
  rewrite (xorb_comm sy sx), (Pos.mul_comm my mx), (Z.add_comm ey ex). reflexivity.
Qed.

Lemma digits2_pos_iter_xO m (k : positive) :
  Zpos (digits2_pos (Pos.iter xO m k)) = Zpos (digits2_pos m) + Zpos k.
Proof.
  revert m. induction k using Pos.peano_ind; intros m.
  - simpl. lia.
  - rewrite Pos.iter_succ. simpl. rewrite Pos2Z.inj_succ, IHk. lia.
Qed.

Lemma iter_pos_nat {A} (f : A → A) p : ∀ x,
  SpecFloat.iter_pos f p x = Nat.iter (Pos.to_nat p) f x.
Proof.
  induction p as [p IH|p IH|]; intros x; simpl SpecFloat.iter_pos.
  - rewrite !IH, Pos2Nat.inj_xI, Nat.iter_succ_r.
    replace (2 * Pos.to_nat p)%nat with (Pos.to_nat p + Pos.to_nat p)%nat by lia.
    now rewrite Nat.iter_add.
  - rewrite !IH, Pos2Nat.inj_xO.
    replace (2 * Pos.to_nat p)%nat with (Pos.to_nat p + Pos.to_nat p)%nat by lia.
    now rewrite Nat.iter_add.
  - reflexivity.
Qed.

Lemma shr_1_shifted n : ∀ m,
  Nat.iter n shr_1 (Build_shr_record (Zpos (Nat.iter n xO m)) false false)
  = Build_shr_record (Zpos m) false false.
Proof.
  induction n as [|n IH]; intros m; [reflexivity|].
  rewrite Nat.iter_succ_r. simpl. apply IH.
Qed.

Lemma iter_pos_shr_1 m k :
  SpecFloat.iter_pos shr_1 k (shr_record_of_loc (Zpos (Pos.iter xO m k)) loc_Exact)
  = Build_shr_record (Zpos m) false false.
Proof. rewrite iter_pos_nat, Pos2Nat.inj_iter. apply shr_1_shifted. Qed.

Lemma mul_pow2 m k : (m * Pos.iter xO 1 k)%positive = Pos.iter xO m k.
Proof.
  induction k using Pos.peano_ind.
  - simpl. now rewrite Pos.mul_xO_r, Pos.mul_1_r.
  - rewrite !Pos.iter_succ, Pos.mul_xO_r. now f_equal.
Qed.

Lemma SFmul_pow2 prec emax sx mx ex k :
  bounded prec emax mx ex = true →
  SFmul prec emax (S754_finite sx mx ex) (S754_finite false (Pos.iter xO 1%positive k) (- Zpos k))
  = S754_finite sx mx ex.
Proof.
  intros Hb. apply andb_true_iff in Hb as [Hc He].
  unfold canonical_mantissa in Hc. apply Z.eqb_eq in Hc.
  unfold SFmul. rewrite xorb_false_r, mul_pow2.
  unfold binary_round_aux, shr_fexp. unfold Zdigits2 at 1.
  rewrite digits2_pos_iter_xO.
  replace (Z.pos (digits2_pos mx) + Z.pos k + (ex + - Z.pos k))
    with (Z.pos (digits2_pos mx) + ex) by lia.
  rewrite Hc.
  replace (ex - (ex + - Z.pos k)) with (Z.pos k) by lia.
  unfold shr at 1. rewrite iter_pos_shr_1.
  simpl shr_m. simpl loc_of_shr_record. simpl round_nearest_even.
  unfold Zdigits2.
  replace (ex + - Z.pos k + Z.pos k) with ex by lia.
  rewrite Hc, Z.sub_diag. simpl. now rewrite He.
Qed.

Lemma SFmul_one_double x :
  valid_binary 53 1024 x = true → SFmul 53 1024 x (SFone 53 1024) = x.
Proof.
  destruct x as [[]|[]| |sx mx ex]; try reflexivity.
  intros Hb. apply (SFmul_pow2 53 1024 sx mx ex 52 Hb).
Qed.

Lemma SFmul_one_float x :
  valid_binary 24 128 x = true → SFmul 24 128 x (SFone 24 128) = x.
Proof.
  destruct x as [[]|[]| |sx mx ex]; try reflexivity.
  intros Hb. apply (SFmul_pow2 24 128 sx mx ex 23 Hb).
Qed.

Lemma SFeqb_refl x : x ≠ S754_nan → SFeqb x x = true.
Proof.
  unfold SFeqb. destruct x as [sx|[]| |[] mx ex]; try done; intros _; simpl;
    by rewrite Z.compare_refl, Pos.compare_cont_refl.
Qed.
End IEEE.

Lemma wrap32_small x : wf (Arith := unsigned_arith) x = true → wrap32 x = x.
Proof.
  simpl. intros [H1 H2]%andb_true_iff. apply Z.mod_small. lia.
Qed.

(** ** The binary operations *)

Section Wrappers.
Context {math_t : Type} {A : Arith math_t}.
Implicit Types (d : device math_t).

(** Any element function passed to [binaryOp]: the call completes with
    the zip postcondition. *)
Lemma zip_completes d out in1 in2 len f stream sched :
  idle d stream →
  allocated (global d) out len = true →
  allocated (global d) in1 len = true →
  allocated (global d) in2 len = true →
  alias_ok out in1 len = true → alias_ok out in2 len = true →
  (∀ i a b, 0 ≤ i < len → global d !! (in1 + i) = Some a →
     global d !! (in2 + i) = Some b → is_Some (f a b)) →
  ∃ d', cudaStreamSynchronize stream [sched]
          (binaryOp out in1 in2 len f stream d) = Some d' ∧
        zip_post d d' out in1 in2 len f.
Proof.
  intros. destruct (binaryOp_ok d out in1 in2 len f stream sched)
    as (d' & ? & ? & _); eauto.
Qed.

Lemma map_completes d out in_ len f stream sched :
  idle d stream →
  allocated (global d) out len = true →
  allocated (global d) in_ len = true →
  alias_ok out in_ len = true →
  (∀ i x, 0 ≤ i < len → global d !! (in_ + i) = Some x → is_Some (f x)) →
  ∃ d', cudaStreamSynchronize stream [sched]
          (unaryOp out in_ len f stream d) = Some d' ∧
        map_post d d' out in_ len f.
Proof.
  intros. destruct (unaryOp_ok d out in_ len f stream sched)
    as (d' & ? & ? & _); eauto.
Qed.

(** C1: for buffers [in1], [in2] of length [len] and each of eltwiseAdd,
    eltwiseSub, eltwiseMultiply, eltwiseDivide and
    eltwiseDivideCheckZero, the stream completes under every schedule
    and then [out[i]] is the operation's element function applied to
    [in1[i]] and [in2[i]], for every [i] in [0, len).  The two divisions
    complete when every division they perform is defined. *)
Theorem eltwise_binary_correct d out in1 in2 len stream sched :
  idle d stream →
  allocated (global d) out len = true →
  allocated (global d) in1 len = true →
  allocated (global d) in2 len = true →
  alias_ok out in1 len = true → alias_ok out in2 len = true →
  (∃ d', cudaStreamSynchronize stream [sched]
           (eltwiseAdd out in1 in2 len stream d) = Some d' ∧
         zip_post d d' out in1 in2 len (λ a b, Some (a + b)%M)) ∧
  (∃ d', cudaStreamSynchronize stream [sched]
           (eltwiseSub out in1 in2 len stream d) = Some d' ∧
         zip_post d d' out in1 in2 len (λ a b, Some (a - b)%M)) ∧
  (∃ d', cudaStreamSynchronize stream [sched]
           (eltwiseMultiply out in1 in2 len stream d) = Some d' ∧
         zip_post d d' out in1 in2 len (λ a b, Some (a * b)%M)) ∧
  ((∀ i a b, 0 ≤ i < len → global d !! (in1 + i) = Some a →
      global d !! (in2 + i) = Some b → is_Some (a / b)%M) →
   ∃ d', cudaStreamSynchronize stream [sched]
           (eltwiseDivide out in1 in2 len stream d) = Some d' ∧
         zip_post d d' out in1 in2 len (λ a b, (a / b)%M)) ∧
  ((∀ i a b, 0 ≤ i < len → global d !! (in1 + i) = Some a →
      global d !! (in2 + i) = Some b → (b == zero)%M = false →
      is_Some (a / b)%M) →
   ∃ d', cudaStreamSynchronize stream [sched]
           (eltwiseDivideCheckZero out in1 in2 len stream d) = Some d' ∧
         zip_post d d' out in1 in2 len
           (λ a b, if (b == zero)%M then Some zero else (a / b)%M)).
Proof.
  intros Hidle Ho H1 H2 Ha1 Ha2.
  split_and!; [| | |intros Hdef|intros Hdef];
    apply zip_completes; try done; try (intros; eauto; fail).
  intros i a b Hi Ha Hb. destruct (b == zero)%M eqn:Hz; eauto.
Qed.

(** C3: for a buffer [in] of length [len] and a scalar [s], after stream
    completion scalarAdd gives [out[i] = in[i] + s] and scalarMultiply
    gives [out[i] = in[i] * s], for every [i] in [0, len). *)
Theorem scalar_ops_correct d out in_ scalar len stream sched :
  idle d stream →
  allocated (global d) out len = true →
  allocated (global d) in_ len = true →
  alias_ok out in_ len = true →
  (∃ d', cudaStreamSynchronize stream [sched]
           (scalarAdd out in_ scalar len stream d) = Some d' ∧
         map_post d d' out in_ len (λ x, Some (x + scalar)%M)) ∧
  (∃ d', cudaStreamSynchronize stream [sched]
           (scalarMultiply out in_ scalar len stream d) = Some d' ∧
         map_post d d' out in_ len (λ x, Some (x * scalar)%M)).
Proof.
  intros. split; apply map_completes; eauto.
Qed.
End Wrappers.

Lemma eltwise_binary_correct_witness :
  ∃ d', cudaStreamSynchronize 0%nat [sched0]
          (eltwiseAdd (A := double_arith) 8 0 4 4 0%nat dev0) = Some d' ∧
        zip_post dev0 d' 8 0 4 4 (λ a b, Some (SFadd 53 1024 a b)).
Proof.
  apply (eltwise_binary_correct (A := double_arith) dev0 8 0 4 4 0%nat sched0);
    vm_compute; reflexivity.
Defined.

Lemma scalar_ops_correct_witness :
  ∃ d', cudaStreamSynchronize 0%nat [sched1]
          (scalarAdd (A := double_arith) 8 0 (dbl 3 (-1)) 4 0%nat dev0) = Some d' ∧
        map_post dev0 d' 8 0 4 (λ x, Some (SFadd 53 1024 x (dbl 3 (-1)))).
Proof.
  apply (scalar_ops_correct (A := double_arith) dev0 8 0 (dbl 3 (-1)) 4 0%nat sched1);
    vm_compute; reflexivity.
Defined.

(** The wrappers on concrete buffers. *)

Example eltwiseSub_double :
  (d ← cudaStreamSynchronize 0%nat [sched0]
         (eltwiseSub (A := double_arith) 8 0 4 4 0%nat dev0);
   Some (contents (global d) 8 4))
  = Some (Some <$> [dbl 1 0; dbl 1 0; dbl 1 0; dbl 4 0]).
Proof. vm_compute. reflexivity. Qed.

Example eltwiseSub_unsigned_wraps :
  (d ← cudaStreamSynchronize 0%nat [schedu]
         (eltwiseSub (A := unsigned_arith) 6 3 0 3 0%nat devu);
   Some (contents (global d) 6 3))
  = Some [Some 4294967292; Some 4294967289; Some 4294967292].
Proof. vm_compute. reflexivity. Qed.

Example scalarMultiply_in_place :
  (d ← cudaStreamSynchronize 0%nat [sched1]
         (scalarMultiply (A := double_arith) 0 0 (dbl 3 (-1)) 4 0%nat dev0);
   Some (contents (global d) 0 4))
  = Some (Some <$> [dbl 3 (-1); dbl 3 0; dbl 9 (-1); dbl 6 0]).
Proof. vm_compute. reflexivity. Qed.

(** Every thread of the launch runs once, whatever order is asked for:
    none at all, or one with events the kernel does not have. *)
Example eltwiseAdd_runs_every_thread :
  (d ← cudaStreamSynchronize 0%nat [[]]
         (eltwiseAdd (A := double_arith) 8 0 4 4 0%nat dev0);
   Some (contents (global d) 8 4))
  = Some (Some <$> [dbl 1 0; dbl 3 0; dbl 5 0; dbl 4 0]) ∧
  (d ← cudaStreamSynchronize 0%nat [[Store 7; Load 9; Load 2; Load 2; Store 0]]
         (eltwiseAdd (A := double_arith) 8 0 4 4 0%nat dev0);
   Some (contents (global d) 8 4))
  = Some (Some <$> [dbl 1 0; dbl 3 0; dbl 5 0; dbl 4 0]).
Proof. vm_compute. done. Qed.

(** The length handed to the primitive is the number of threads: the
    same element function launched over 2 indices leaves the last two
    cells of the output as they were, also under an order written for 4. *)
Example launch_length_is_thread_count :
  (d ← cudaStreamSynchronize 0%nat [sched0]
         (binaryOp 8 0 4 2 (λ a b, Some (SFadd 53 1024 a b)) 0%nat dev0);
   Some (contents (global d) 8 4))
  = Some (Some <$> [dbl 1 0; dbl 3 0; S754_nan; S754_nan]).
Proof. vm_compute. reflexivity. Qed.

(** An output buffer that overlaps an input one element further on is a
    data race: the result depends on the schedule.  [alias_ok] excludes
    it. *)
Example partial_overlap_depends_on_schedule :
  alias_ok 1 0 2 = false ∧
  (d ← cudaStreamSynchronize 0%nat [[Load 0; Store 0; Load 1; Store 1]]
         (eltwiseAdd (A := unsigned_arith) 1 0 3 2 0%nat devo);
   Some (contents (global d) 1 2)) = Some [Some 11; Some 21] ∧
  (d ← cudaStreamSynchronize 0%nat [[Load 1; Store 1; Load 0; Store 0]]
         (eltwiseAdd (A := unsigned_arith) 1 0 3 2 0%nat devo);
   Some (contents (global d) 1 2)) = Some [Some 11; Some 12].
Proof. vm_compute. done. Qed.

(** ** Division *)

Lemma contents_4 {math_t} (m : gmap Z math_t) p :
  contents m p 4 = [m !! (p + 0); m !! (p + 1); m !! (p + 2); m !! (p + 3)].
Proof. reflexivity. Qed.

Lemma contents_allocated {math_t} (m : gmap Z math_t) p len (l : list math_t) :
  contents m p len = Some <$> l → allocated m p len = true.
Proof.
  intros Hc. apply allocated_spec. intros i Hi.
  assert (Hl : contents m p len !! Z.to_nat i = Some (m !! (p + i))).
  { unfold contents. rewrite list_lookup_fmap.
    rewrite (lookup_seqZ_lt 0 len (Z.to_nat i)) by lia. simpl.
    do 2 f_equal. lia. }
  rewrite Hc, list_lookup_fmap in Hl.
  destruct (l !! Z.to_nat i) as [x|]; [|done].
  simpl in Hl. exists x. congruence.
Qed.

(** C2: eltwiseDivideCheckZero gives [out[i] = 0] wherever [b[i] == 0],
    and [a[i] / b[i]] elsewhere, which is what eltwiseDivide leaves at that
    index: whenever it completes, and it does complete when the native
    division is defined on every pair of elements.  For in1 = [1,2,3,4]
    and in2 = [0,1,2,0] in [double] the output is [0, 2, 1.5, 0], in
    whatever order the threads run, where eltwiseDivide leaves
    [inf, 2, 1.5, inf]. *)
Theorem divide_check_zero_guard :
  (∀ math_t (A : Arith math_t) (d : device math_t) out in1 in2 len stream sched,
     idle d stream →
     allocated (global d) out len = true →
     allocated (global d) in1 len = true →
     allocated (global d) in2 len = true →
     alias_ok out in1 len = true → alias_ok out in2 len = true →
     (∀ i a b, 0 ≤ i < len → global d !! (in1 + i) = Some a →
        global d !! (in2 + i) = Some b → (b == zero)%M = false →
        is_Some (a / b)%M) →
     ∃ d', cudaStreamSynchronize stream [sched]
             (eltwiseDivideCheckZero out in1 in2 len stream d) = Some d' ∧
       ∀ i a b, 0 ≤ i < len → global d !! (in1 + i) = Some a →
         global d !! (in2 + i) = Some b →
         ((b == zero)%M = true → global d' !! (out + i) = Some zero) ∧
         ((b == zero)%M = false →
            global d' !! (out + i) = (a / b)%M ∧
            ∀ sched2 d2,
              cudaStreamSynchronize stream [sched2]
                (eltwiseDivide out in1 in2 len stream d) = Some d2 →
              global d2 !! (out + i) = global d' !! (out + i))) ∧
  (∀ math_t (A : Arith math_t) (d : device math_t)
     out in1 in2 len stream sched sched2,
     idle d stream →
     allocated (global d) out len = true →
     allocated (global d) in1 len = true →
     allocated (global d) in2 len = true →
     alias_ok out in1 len = true → alias_ok out in2 len = true →
     (∀ i a b, 0 ≤ i < len → global d !! (in1 + i) = Some a →
        global d !! (in2 + i) = Some b → is_Some (a / b)%M) →
     ∃ d' d2,
       cudaStreamSynchronize stream [sched]
         (eltwiseDivideCheckZero out in1 in2 len stream d) = Some d' ∧
       cudaStreamSynchronize stream [sched2]
         (eltwiseDivide out in1 in2 len stream d) = Some d2 ∧
       ∀ i b, 0 ≤ i < len → global d !! (in2 + i) = Some b →
         (b == zero)%M = false →
         global d2 !! (out + i) = global d' !! (out + i)) ∧
  (∀ (d : device spec_float) out in1 in2 stream sched,
     idle d stream →
     allocated (global d) out 4 = true →
     alias_ok out in1 4 = true → alias_ok out in2 4 = true →
     contents (global d) in1 4 = Some <$> [dbl 1 0; dbl 2 0; dbl 3 0; dbl 4 0] →
     contents (global d) in2 4 = Some <$> [dbl 0 0; dbl 1 0; dbl 2 0; dbl 0 0] →
     ∃ d' d2,
       cudaStreamSynchronize stream [sched]
         (eltwiseDivideCheckZero (A := double_arith) out in1 in2 4 stream d)
       = Some d' ∧
       contents (global d') out 4 =
         Some <$> [dbl 0 0; dbl 2 0; dbl 3 (-1); dbl 0 0] ∧
       cudaStreamSynchronize stream [sched]
         (eltwiseDivide (A := double_arith) out in1 in2 4 stream d)
       = Some d2 ∧
       contents (global d2) out 4 =
         Some <$> [S754_infinity false; dbl 2 0; dbl 3 (-1); S754_infinity false]).
Proof.
  assert (Hgen : ∀ math_t (A : Arith math_t) (d : device math_t)
            out in1 in2 len stream sched,
     idle d stream →
     allocated (global d) out len = true →
     allocated (global d) in1 len = true →
     allocated (global d) in2 len = true →
     alias_ok out in1 len = true → alias_ok out in2 len = true →
     (∀ i a b, 0 ≤ i < len → global d !! (in1 + i) = Some a →
        global d !! (in2 + i) = Some b → (b == zero)%M = false →
        is_Some (a / b)%M) →
     ∃ d', cudaStreamSynchronize stream [sched]
             (eltwiseDivideCheckZero out in1 in2 len stream d) = Some d' ∧
           zip_post d d' out in1 in2 len
             (λ a b, if (b == zero)%M then Some zero else (a / b)%M)).
  { intros ? A d out in1 in2 len stream sched ? ? ? ? ? ? Hdef.
    apply zip_completes; try done.
    intros i a b Hi Ha Hb. destruct (b == zero)%M eqn:Hz; eauto. }
  split_and!.
  - intros math_t A d out in1 in2 len stream sched
      Hidle Ho H1 H2 Ha1 Ha2 Hdef.
    destruct (Hgen _ A d out in1 in2 len stream sched) as (d' & Hsync & Hpost);
      [done..|].
    exists d'. split; [done|]. intros i a b Hi Ha Hb.
    rewrite (Hpost i a b Hi Ha Hb). split; intros Hz; rewrite Hz; [done|].
    split; [done|]. intros sched2 d2 Hsync2.
    destruct (binaryOp_sound d d2 out in1 in2 len _ stream sched2
                Hidle Ha1 Ha2 Hsync2) as [Hout _].
    rewrite (Hout i Hi), Ha, Hb. done.
  - intros math_t A d out in1 in2 len stream sched sched2
      Hidle Ho H1 H2 Ha1 Ha2 Hdef.
    destruct (Hgen _ A d out in1 in2 len stream sched) as (d' & Hsync & Hpost);
      [done..|by eauto|].
    destruct (zip_completes d out in1 in2 len (λ a b, (a / b)%M) stream sched2)
      as (d2 & Hsync2 & Hpost2); [done..|].
    exists d', d2. split_and!; [done..|]. intros i b Hi Hb Hz.
    rewrite allocated_spec in H1. destruct (H1 i Hi) as [a Ha].
    by rewrite (Hpost i a b Hi Ha Hb), (Hpost2 i a b Hi Ha Hb), Hz.
  - intros d out in1 in2 stream sched Hidle Ho Ha1 Ha2 Hc1 Hc2.
    destruct (Hgen _ double_arith d out in1 in2 4 stream sched)
      as (d' & Hsync & Hpost);
      [done..|by eapply contents_allocated|by eapply contents_allocated
      |done|done|by simpl; eauto|].
    destruct (zip_completes d out in1 in2 4
                (λ a b, Some (SFdiv 53 1024 a b)) stream sched)
      as (d2 & Hsync2 & Hpost2);
      [done..|by eapply contents_allocated|by eapply contents_allocated
      |done|done|by simpl; eauto|].
    exists d', d2. split; [done|].
    rewrite !contents_4 in *. simpl in Hc1, Hc2.
    injection Hc1 as Hx0 Hx1 Hx2 Hx3. injection Hc2 as Hy0 Hy1 Hy2 Hy3.
    rewrite (Hpost 0 _ _ ltac:(lia) Hx0 Hy0), (Hpost 1 _ _ ltac:(lia) Hx1 Hy1),
      (Hpost 2 _ _ ltac:(lia) Hx2 Hy2), (Hpost 3 _ _ ltac:(lia) Hx3 Hy3).
    rewrite (Hpost2 0 _ _ ltac:(lia) Hx0 Hy0), (Hpost2 1 _ _ ltac:(lia) Hx1 Hy1),
      (Hpost2 2 _ _ ltac:(lia) Hx2 Hy2), (Hpost2 3 _ _ ltac:(lia) Hx3 Hy3).
    split_and!; [|done|]; vm_compute; reflexivity.
Qed.

Lemma divide_check_zero_guard_witness :
  ∃ d' d2,
    cudaStreamSynchronize 0%nat [sched0]
      (eltwiseDivideCheckZero (A := double_arith) 8 0 4 4 0%nat dev0) = Some d' ∧
    contents (global d') 8 4 = Some <$> [dbl 0 0; dbl 2 0; dbl 3 (-1); dbl 0 0] ∧
    cudaStreamSynchronize 0%nat [sched0]
      (eltwiseDivide (A := double_arith) 8 0 4 4 0%nat dev0) = Some d2 ∧
    contents (global d2) 8 4 =
      Some <$> [S754_infinity false; dbl 2 0; dbl 3 (-1); S754_infinity false].
Proof.
  apply (proj2 (proj2 divide_check_zero_guard) dev0 8 0 4 0%nat sched0);
    vm_compute; reflexivity.
Defined.

Lemma SFdiv_by_zero prec emax a b :
  SFeqb b (S754_zero false) = true →
  SFdiv prec emax a b = S754_nan ∨ ∃ s, SFdiv prec emax a b = S754_infinity s.
Proof.
  destruct b as [sb|[]| |[] mb eb]; try discriminate; intros _;
    destruct a as [sa|sa| |sa ma ea]; simpl; eauto.
Qed.

(** C4: eltwiseDivide hands every pair of elements to the native
    division and stores what it gives, zero divisors included, with no
    case of its own.  For every element type: a call that completes has
    left [a / b] at every index, and the call completes when the native
    division is defined on every pair.  In the IEEE types it always
    completes, and a zero divisor gives an infinity or NaN.  In the
    integer type, whatever dividing by zero yields ([div0]), that is
    what is stored; where it yields nothing, nothing is promised: the
    call requires it of its inputs and checks nothing. *)
Theorem eltwiseDivide_native_division :
  (∀ math_t (A : Arith math_t) (d d' : device math_t)
     out in1 in2 len stream sched,
     idle d stream →
     alias_ok out in1 len = true → alias_ok out in2 len = true →
     cudaStreamSynchronize stream [sched]
       (eltwiseDivide out in1 in2 len stream d) = Some d' →
     zip_post d d' out in1 in2 len (λ a b, (a / b)%M)) ∧
  (∀ math_t (A : Arith math_t) (d : device math_t)
     out in1 in2 len stream sched,
     idle d stream →
     allocated (global d) out len = true →
     allocated (global d) in1 len = true →
     allocated (global d) in2 len = true →
     alias_ok out in1 len = true → alias_ok out in2 len = true →
     (∀ i a b, 0 ≤ i < len → global d !! (in1 + i) = Some a →
        global d !! (in2 + i) = Some b → is_Some (a / b)%M) →
     ∃ d', cudaStreamSynchronize stream [sched]
             (eltwiseDivide out in1 in2 len stream d) = Some d') ∧
  (∀ prec emax (d : device spec_float) out in1 in2 len stream sched,
     idle d stream →
     allocated (global d) out len = true →
     allocated (global d) in1 len = true →
     allocated (global d) in2 len = true →
     alias_ok out in1 len = true → alias_ok out in2 len = true →
     ∃ d', cudaStreamSynchronize stream [sched]
             (eltwiseDivide (A := ieee_arith prec emax) out in1 in2 len stream d)
           = Some d' ∧
       ∀ i a b, 0 ≤ i < len → global d !! (in1 + i) = Some a →
         global d !! (in2 + i) = Some b →
         global d' !! (out + i) = Some (SFdiv prec emax a b) ∧
         (SFeqb b (S754_zero false) = true →
            SFdiv prec emax a b = S754_nan ∨
            ∃ s, SFdiv prec emax a b = S754_infinity s)) ∧
  (∀ (div0 : Z → option Z) (d : device Z) out in1 in2 len stream sched,
     idle d stream →
     allocated (global d) out len = true →
     allocated (global d) in1 len = true →
     allocated (global d) in2 len = true →
     alias_ok out in1 len = true → alias_ok out in2 len = true →
     (∀ i a, 0 ≤ i < len → global d !! (in1 + i) = Some a →
        global d !! (in2 + i) = Some 0 → is_Some (div0 a)) →
     ∃ d', cudaStreamSynchronize stream [sched]
             (eltwiseDivide (A := unsigned_arith_with div0) out in1 in2 len stream d)
           = Some d' ∧
       ∀ i a b, 0 ≤ i < len → global d !! (in1 + i) = Some a →
         global d !! (in2 + i) = Some b →
         global d' !! (out + i) = if b =? 0 then div0 a else Some (a / b)).
Proof.
  split_and!.
  - intros math_t A d d' out in1 in2 len stream sched Hidle Ha1 Ha2 Hsync.
    destruct (binaryOp_sound d d' out in1 in2 len _ stream sched
                Hidle Ha1 Ha2 Hsync) as [Hout _].
    intros i a b Hi Ha Hb. by rewrite (Hout i Hi), Ha, Hb.
  - intros math_t A d out in1 in2 len stream sched Hidle Ho H1 H2 Ha1 Ha2 Hdef.
    destruct (zip_completes d out in1 in2 len (λ a b, (a / b)%M) stream sched)
      as (d' & Hsync & _); [done..|]. by exists d'.
  - intros prec emax d out in1 in2 len stream sched Hidle Ho H1 H2 Ha1 Ha2.
    destruct (zip_completes d out in1 in2 len
                (λ a b, Some (SFdiv prec emax a b)) stream sched)
      as (d' & Hsync & Hpost); eauto.
    exists d'. split; [done|]. intros i a b Hi Ha Hb.
    split; [by apply Hpost|apply SFdiv_by_zero].
  - intros div0 d out in1 in2 len stream sched Hidle Ho H1 H2 Ha1 Ha2 Hdef.
    destruct (zip_completes d out in1 in2 len
                (λ a b, if b =? 0 then div0 a else Some (a / b)) stream sched)
      as (d' & Hsync & Hpost); [done..| |by exists d'].
    intros i a b Hi Ha Hb. destruct (b =? 0) eqn:Hz; [|by eauto].
    apply Z.eqb_eq in Hz as ->. by apply (Hdef i).
Qed.

Lemma eltwiseDivide_native_division_witness :
  (∃ d', cudaStreamSynchronize 0%nat [schedu]
           (eltwiseDivide (A := unsigned_arith_with (λ _, Some 4294967295))
              6 0 3 3 0%nat devu) = Some d' ∧
     ∀ i a b, 0 ≤ i < 3 → global devu !! (0 + i) = Some a →
       global devu !! (3 + i) = Some b →
       global d' !! (6 + i) = if b =? 0 then Some 4294967295 else Some (a / b)) ∧
  ∃ d', cudaStreamSynchronize 0%nat [sched0]
          (eltwiseDivide (A := double_arith) 8 0 4 4 0%nat dev0) = Some d' ∧
    ∀ i a b, 0 ≤ i < 4 → global dev0 !! (0 + i) = Some a →
      global dev0 !! (4 + i) = Some b →
      global d' !! (8 + i) = Some (SFdiv 53 1024 a b) ∧
      (SFeqb b (S754_zero false) = true →
         SFdiv 53 1024 a b = S754_nan ∨
         ∃ s, SFdiv 53 1024 a b = S754_infinity s).
Proof.
  split.
  - apply (proj2 (proj2 (proj2 eltwiseDivide_native_division))
             (λ _, Some 4294967295) devu 6 0 3 3 0%nat schedu);
      [vm_compute; reflexivity..|by eauto].
  - apply (proj1 (proj2 (proj2 eltwiseDivide_native_division)) 53 1024
             dev0 8 0 4 4 0%nat sched0); vm_compute; reflexivity.
Defined.

(** ** Frame, aliasing and determinism *)

Lemma is_schedule_empty len sched :
  len ≤ 0 → is_schedule len sched = true → sched = [].
Proof.
  intros Hlen. unfold is_schedule. rewrite seqZ_nil by lia. simpl.
  destruct sched as [|[i|i] sched]; [done|simpl..];
    intros [Hi _]%andb_true_iff; apply bool_decide_eq_true in Hi; set_solver.
Qed.

Section Frame.
Context {math_t : Type} {A : Arith math_t}.
Implicit Types (d : device math_t) (m : gmap Z math_t).

(** The kernel behind a call: what it needs to be race-free, and the
    cells thread [i] reads. *)
Lemma call_kernel (op : operation math_t) out in1 in2 len stream :
  ∃ k, (∀ d, call op out in1 in2 len stream d = enqueue stream k d) ∧
       k_len k = len ∧ (∀ i, k_dest k i = out + i) ∧
       (Forall (λ inp, alias_ok out inp len = true) (inputs op in1 in2) →
        race_free k) ∧
       (∀ i m m',
          Forall (λ inp, m !! (inp + i) = m' !! (inp + i)) (inputs op in1 in2) →
          k_compute k i m = k_compute k i m').
Proof.
  destruct op; simpl; eexists; (split; [reflexivity|]);
    (split; [reflexivity|]); (split; [reflexivity|]); simpl; split.
  all: try (intros [? _]%Forall_cons; by apply unaryOp_race_free).
  all: try (intros [? [? _]%Forall_cons]%Forall_cons;
            by apply binaryOp_race_free).
  all: try (intros i m m' [H1 _]%Forall_cons; unfold load; by rewrite H1).
  all: intros i m m' [H1 [H2 _]%Forall_cons]%Forall_cons;
         unfold load; by rewrite H1, H2.
Qed.

(** C5: with [len = 0] every operation is a no-op: the kernel the call
    enqueues has no thread event to run, whatever order the device is
    asked to follow; the stream completes without fault whatever the
    three pointers are, and no cell of the memory changes. *)
Theorem zero_length_noop (op : operation math_t) d out in1 in2 stream sched :
  idle d stream →
  Forall (λ k, ∀ s, thread_events (k_len k) s = [])
         (pending (call op out in1 in2 0 stream d) stream) ∧
  ∃ d', cudaStreamSynchronize stream [sched]
          (call op out in1 in2 0 stream d) = Some d' ∧
        global d' = global d.
Proof.
  intros Hidle.
  destruct (call_kernel op out in1 in2 0 stream) as (k & -> & Hlen & _).
  split.
  - rewrite pending_enqueue, Hidle. simpl. apply Forall_singleton.
    intros s. apply thread_events_none. lia.
  - rewrite sync_enqueue by done. unfold run_kernel.
    rewrite thread_events_none by lia. simpl. eauto.
Qed.

(** C6: eltwiseMultiply(a, a, a, len, stream), the output aliasing both
    inputs, leaves the square of the old value at every index, under
    every schedule: a thread loads its operands before it stores, and
    no other thread touches its cell. *)
Theorem eltwiseMultiply_in_place d a len stream sched :
  idle d stream →
  allocated (global d) a len = true →
  ∃ d', cudaStreamSynchronize stream [sched]
          (eltwiseMultiply a a a len stream d) = Some d' ∧
    ∀ i x, 0 ≤ i < len → global d !! (a + i) = Some x →
           global d' !! (a + i) = Some (x * x)%M.
Proof.
  intros Hidle Ha.
  assert (Hal : alias_ok a a len = true).
  { unfold alias_ok. by rewrite Z.eqb_refl. }
  destruct (zip_completes d a a a len (λ a b, Some (a * b)%M) stream sched)
    as (d' & Hsync & Hpost); [done..|by eauto|].
  exists d'. split; [done|]. intros i x Hi Hx. by apply Hpost.
Qed.
End Frame.

Lemma zero_length_noop_witness :
  ∃ d', cudaStreamSynchronize 0%nat [sched0]
          (call (A := double_arith) EltwiseDivide 100 200 300 0 0%nat dev0) = Some d' ∧
        global d' = global dev0.
Proof.
  apply (zero_length_noop (A := double_arith) EltwiseDivide dev0 100 200 300 0%nat sched0).
  reflexivity.
Defined.

Lemma eltwiseMultiply_in_place_witness :
  ∃ d', cudaStreamSynchronize 0%nat [sched0]
          (eltwiseMultiply (A := double_arith) 0 0 0 4 0%nat dev0) = Some d' ∧
    ∀ i x, 0 ≤ i < 4 → global dev0 !! (0 + i) = Some x →
           global d' !! (0 + i) = Some (SFmul 53 1024 x x).
Proof.
  apply (eltwiseMultiply_in_place (A := double_arith) dev0 0 4 0%nat sched0);
    vm_compute; reflexivity.
Defined.

Section Determinism.
Context {math_t : Type} {A : Arith math_t}.
Implicit Types (d : device math_t) (m : gmap Z math_t).

(** C7: running eltwiseAdd again on inputs that the first run left
    unchanged gives the output of the first run, whatever the two
    schedules. *)
Theorem eltwiseAdd_rerun d out a b len stream sched1 sched2 :
  idle d stream →
  allocated (global d) out len = true →
  allocated (global d) a len = true →
  allocated (global d) b len = true →
  alias_ok out a len = true → alias_ok out b len = true →
  ∃ d1, cudaStreamSynchronize stream [sched1]
          (eltwiseAdd out a b len stream d) = Some d1 ∧
    ((∀ i, 0 ≤ i < len →
        global d1 !! (a + i) = global d !! (a + i) ∧
        global d1 !! (b + i) = global d !! (b + i)) →
     ∃ d2, cudaStreamSynchronize stream [sched2]
             (eltwiseAdd out a b len stream d1) = Some d2 ∧
           global d2 = global d1).
Proof.
  intros Hidle Ho Ha Hb Hal1 Hal2.
  destruct (binaryOp_ok d out a b len (λ x y, Some (x + y)%M) stream sched1)
    as (d1 & Hsync1 & Hout1 & Hframe1); [done..|by eauto|].
  exists d1. split; [done|]. intros Hsame.
  pose proof (proj1 (allocated_spec _ _ _) Ha) as Ha'.
  pose proof (proj1 (allocated_spec _ _ _) Hb) as Hb'.
  destruct (binaryOp_ok d1 out a b len (λ x y, Some (x + y)%M) stream sched2)
    as (d2 & Hsync2 & Hout2 & Hframe2);
    [by eapply idle_after_sync| | | |done|done|by eauto|].
  - apply allocated_spec. intros i Hi.
    destruct (Ha' i Hi) as [x Hx], (Hb' i Hi) as [y Hy].
    rewrite (Hout1 i x y Hi Hx Hy). eauto.
  - apply allocated_spec. intros i Hi.
    rewrite (proj1 (Hsame i Hi)). auto.
  - apply allocated_spec. intros i Hi.
    rewrite (proj2 (Hsame i Hi)). auto.
  - exists d2. split; [done|]. apply map_eq. intros p.
    destruct (decide (out ≤ p < out + len)) as [Hp|Hp]; [|by apply Hframe2].
    replace p with (out + (p - out)) by lia.
    assert (Hi : 0 ≤ p - out < len) by lia.
    destruct (Ha' _ Hi) as [x Hx], (Hb' _ Hi) as [y Hy].
    rewrite (Hout1 _ x y Hi Hx Hy). apply Hout2; [done|..].
    + by rewrite (proj1 (Hsame _ Hi)).
    + by rewrite (proj2 (Hsame _ Hi)).
Qed.

End Determinism.

Lemma eltwiseAdd_rerun_witness :
  ∃ d1 d2,
    cudaStreamSynchronize 0%nat [sched0]
      (eltwiseAdd (A := double_arith) 8 0 4 4 0%nat dev0) = Some d1 ∧
    cudaStreamSynchronize 0%nat [sched1]
      (eltwiseAdd (A := double_arith) 8 0 4 4 0%nat d1) = Some d2 ∧
    global d2 = global d1.
Proof.
  destruct (eltwiseAdd_rerun (A := double_arith) dev0 8 0 4 4 0%nat sched0 sched1)
    as (d1 & Hsync & Hrerun); [vm_compute; reflexivity..|].
  exists d1. destruct Hrerun as (d2 & Hsync2 & Heq).
  - vm_compute in Hsync. injection Hsync as <-.
    intros i Hi.
    assert (i = 0 ∨ i = 1 ∨ i = 2 ∨ i = 3) as [->|[->|[->| ->]]] by lia;
      vm_compute; split; reflexivity.
  - exists d2. split_and!; done.
Defined.


(** ** Algebraic properties *)

Lemma binaryOp_swap {math_t} (f : math_t → math_t → math_t) :
  (∀ a b, f a b = f b a) →
  swap_invariant (λ out in1 in2 len stream,
    binaryOp out in1 in2 len (λ a b, Some (f a b)) stream).
Proof.
  intros Hcomm d out in1 in2 len stream sched1 sched2
    Hidle Ho H1 H2 Ha1 Ha2.
  destruct (binaryOp_ok d out in1 in2 len (λ a b, Some (f a b)) stream sched1)
    as (d1 & Hsync1 & Hout1 & Hframe1); [done..|by eauto|].
  destruct (binaryOp_ok d out in2 in1 len (λ a b, Some (f a b)) stream sched2)
    as (d2 & Hsync2 & Hout2 & Hframe2); [done..|by eauto|].
  exists d1, d2. split_and!; [done..|]. apply map_eq. intros p.
  destruct (decide (out ≤ p < out + len)) as [Hp|Hp].
  - replace p with (out + (p - out)) by lia.
    assert (Hi : 0 ≤ p - out < len) by lia.
    rewrite allocated_spec in H1, H2.
    destruct (H1 _ Hi) as [x Hx], (H2 _ Hi) as [y Hy].
    rewrite (Hout1 _ x y Hi Hx Hy), (Hout2 _ y x Hi Hy Hx). by rewrite Hcomm.
  - by rewrite Hframe1, Hframe2.
Qed.

(** C9: eltwiseAdd and eltwiseMultiply are symmetric in their two input
    buffers, in [float], [double] and [unsigned]: swapping [in1] and [in2]
    leaves the same memory, whatever the schedules. *)
Theorem add_multiply_commute :
  (∀ prec emax,
     swap_invariant (eltwiseAdd (A := ieee_arith prec emax)) ∧
     swap_invariant (eltwiseMultiply (A := ieee_arith prec emax))) ∧
  swap_invariant (eltwiseAdd (A := unsigned_arith)) ∧
  swap_invariant (eltwiseMultiply (A := unsigned_arith)).
Proof.
  split_and!; [intros prec emax; split|..].
  - apply (binaryOp_swap (SFadd prec emax)), SFadd_comm.
  - apply (binaryOp_swap (SFmul prec emax)), SFmul_comm.
  - apply (binaryOp_swap (λ a b, wrap32 (a + b))).
    intros a b. by rewrite Z.add_comm.
  - apply (binaryOp_swap (λ a b, wrap32 (a * b))).
    intros a b. by rewrite Z.mul_comm.
Qed.

Lemma add_multiply_commute_witness :
  ∃ d1 d2,
    cudaStreamSynchronize 0%nat [sched0]
      (eltwiseAdd (A := double_arith) 8 0 4 4 0%nat dev0) = Some d1 ∧
    cudaStreamSynchronize 0%nat [sched1]
      (eltwiseAdd (A := double_arith) 8 4 0 4 0%nat dev0) = Some d2 ∧
    global d1 = global d2.
Proof.
  apply (proj1 (proj1 add_multiply_commute 53 1024) dev0 8 0 4 4 0%nat sched0 sched1);
    vm_compute; reflexivity.
Defined.

(** ** Scalar identities *)

Lemma map_post_ext {math_t} (d d' : device math_t) out in_ len f g :
  (∀ i x, 0 ≤ i < len → global d !! (in_ + i) = Some x → f x = g x) →
  map_post d d' out in_ len f → map_post d d' out in_ len g.
Proof. intros Hfg Hpost i x Hi Hx. rewrite <- (Hfg i x Hi Hx). by apply Hpost. Qed.

Lemma scalar_identity_unsigned : scalar_identity unsigned_arith.
Proof.
  intros d out in_ len stream sched Hidle Ho Hi Hal Hwf.
  destruct (map_completes d out in_ len (λ x, Some (wrap32 (x + 0))) stream sched)
    as (d1 & Hsync1 & Hpost1); [done..|by eauto|].
  destruct (map_completes d out in_ len (λ x, Some (wrap32 (x * 1))) stream sched)
    as (d2 & Hsync2 & Hpost2); [done..|by eauto|].
  split; [exists d1|exists d2]; (split; [done|]).
  - eapply map_post_ext; [|exact Hpost1]. intros i x Hr Hx. simpl.
    by rewrite Z.add_0_r, (wrap32_small x (Hwf i x Hr Hx)).
  - eapply map_post_ext; [|exact Hpost2]. intros i x Hr Hx. simpl.
    by rewrite Z.mul_1_r, (wrap32_small x (Hwf i x Hr Hx)).
Qed.

(** C10, as the code has it: in [unsigned], scalarAdd with 0 and
    scalarMultiply with 1 return every element as it is; in [float] and
    [double], scalarMultiply with 1 does so too, and scalarAdd with +0.0
    does so at every element but -0.0, which becomes +0.0.  So in the
    IEEE types [out[i] == in[i]] holds at every element that is not NaN. *)
Theorem scalar_identity_amended :
  scalar_identity unsigned_arith ∧
  (∀ A : Arith spec_float, A = float_arith ∨ A = double_arith →
   ∀ (d : device spec_float) out in_ len stream sched,
     idle d stream →
     allocated (global d) out len = true →
     allocated (global d) in_ len = true →
     alias_ok out in_ len = true →
     (∀ i x, 0 ≤ i < len → global d !! (in_ + i) = Some x → wf x = true) →
     (∃ d', cudaStreamSynchronize stream [sched]
              (scalarAdd out in_ zero len stream d) = Some d' ∧
            map_post d d' out in_ len
              (λ x, Some match x with S754_zero true => S754_zero false | _ => x end) ∧
            (∀ i x, 0 ≤ i < len → global d !! (in_ + i) = Some x → x ≠ S754_nan →
               ∃ y, global d' !! (out + i) = Some y ∧ (y == x)%M = true)) ∧
     (∃ d', cudaStreamSynchronize stream [sched]
              (scalarMultiply out in_ one len stream d) = Some d' ∧
            map_post d d' out in_ len Some ∧
            (∀ i x, 0 ≤ i < len → global d !! (in_ + i) = Some x → x ≠ S754_nan →
               ∃ y, global d' !! (out + i) = Some y ∧ (y == x)%M = true))).
Proof.
  split; [exact scalar_identity_unsigned|].
  intros A HA d out in_ len stream sched Hidle Ho Hi Hal Hwf.
  destruct (map_completes d out in_ len (λ x, Some (x + zero)%M) stream sched)
    as (d1 & Hsync1 & Hpost1); [done..|by eauto|].
  destruct (map_completes d out in_ len (λ x, Some (x * one)%M) stream sched)
    as (d2 & Hsync2 & Hpost2); [done..|by eauto|].
  assert (Hadd : map_post d d1 out in_ len
            (λ x, Some match x with S754_zero true => S754_zero false | _ => x end)).
  { eapply map_post_ext; [|exact Hpost1]. intros i x Hr Hx. f_equal.
    destruct HA as [-> | ->]; by destruct x as [[]|[]| |sx mx ex]. }
  assert (Hmul : map_post d d2 out in_ len Some).
  { eapply map_post_ext; [|exact Hpost2]. intros i x Hr Hx.
    specialize (Hwf i x Hr Hx).
    destruct HA as [-> | ->]; simpl in *; f_equal;
      [by apply SFmul_one_float|by apply SFmul_one_double]. }
  assert (Heq : ∀ x : spec_float, x ≠ S754_nan → (x == x)%M = true).
  { intros x Hx. destruct HA as [-> | ->]; by apply SFeqb_refl. }
  split; [exists d1|exists d2]; (split; [done|]); (split; [done|]);
    intros i x Hr Hx Hnan.
  - rewrite (Hadd i x Hr Hx). eexists. split; [done|].
    destruct x as [[]|s| |s m e]; try by apply Heq.
    by destruct HA as [-> | ->].
  - rewrite (Hmul i x Hr Hx). eexists. split; [done|]. by apply Heq.
Qed.

Lemma scalar_identity_amended_witness :
  ∃ d', cudaStreamSynchronize 0%nat [schedz]
          (scalarAdd (A := double_arith) 2 0 (S754_zero false) 2 0%nat devz) = Some d' ∧
        map_post devz d' 2 0 2
          (λ x, Some match x with S754_zero true => S754_zero false | _ => x end).
Proof.
  destruct (proj2 scalar_identity_amended double_arith (or_intror eq_refl)
              devz 2 0 2 0%nat schedz) as [(d' & Hsync & Hpost & _) _];
    try (vm_compute; reflexivity); [|by exists d'].
  intros i x Hi.
  assert (i = 0 ∨ i = 1) as [-> | ->] by lia;
    vm_compute; intros [= <-]; reflexivity.
Defined.

(** C10 as stated fails in [double]: scalarAdd with 0.0 on [-0.0, NaN]
    leaves [+0.0, NaN]; +0.0 is not the value -0.0, and NaN == NaN is
    false. *)
Lemma scalar_identity_counterexample :
  (d' ← cudaStreamSynchronize 0%nat [schedz]
          (scalarAdd (A := double_arith) 2 0 (S754_zero false) 2 0%nat devz);
   Some (contents (global d') 2 2))
    = Some [Some (S754_zero false); Some S754_nan] ∧
  contents (global devz) 0 2 = [Some (S754_zero true); Some S754_nan] ∧
  S754_zero false ≠ S754_zero true ∧
  eqb (Arith := double_arith) S754_nan S754_nan = false ∧
  ¬ scalar_identity double_arith.
Proof.
  split_and!; [vm_compute; reflexivity..|discriminate|reflexivity|].
  intros H.
  destruct (H devz 2 0 2 0%nat schedz) as [(d' & Hsync & Hpost) _];
    try (vm_compute; reflexivity).
  - intros i x Hi.
    assert (i = 0 ∨ i = 1) as [-> | ->] by lia;
      vm_compute; intros [= <-]; reflexivity.
  - vm_compute in Hsync. injection Hsync as <-.
    specialize (Hpost 0 (S754_zero true) ltac:(lia) eq_refl).
    vm_compute in Hpost. discriminate.
Qed.

(** * Further properties of the wrappers *)

(** ** Calls chained on one stream *)

Section Chains.
Context {math_t : Type} {A : Arith math_t}.
Implicit Types (d : device math_t) (m : gmap Z math_t).

Lemma sync_enqueue_two d stream (k1 k2 : kernel math_t) s1 s2 :
  idle d stream →
  cudaStreamSynchronize stream [s1; s2] (enqueue stream k2 (enqueue stream k1 d)) =
    (d1 ← cudaStreamSynchronize stream [s1] (enqueue stream k1 d);
     cudaStreamSynchronize stream [s2] (enqueue stream k2 d1)).
Proof.
  intros Hidle. rewrite (sync_enqueue d stream k1 s1 Hidle).
  unfold cudaStreamSynchronize at 1.
  rewrite !pending_enqueue, Hidle. simpl.
  destruct (run_kernel k1 s1 (global d)) as [m1|]; [simpl|done].
  rewrite sync_enqueue; [simpl|].
  - destruct (run_kernel k2 s2 m1) as [m2|]; [simpl|done].
    by rewrite !delete_insert_eq, delete_delete_eq.
  - unfold idle, pending. simpl. by rewrite lookup_delete_eq.
Qed.

(** X2: a call that completes has changed no cell outside [out[0, len)],
    whatever the operation and the schedule; an input buffer that does
    not overlap the output is left as it was. *)
Theorem call_writes_only_output (op : operation math_t) d d'
    out in1 in2 len stream sched :
  idle d stream →
  Forall (λ inp, alias_ok out inp len = true) (inputs op in1 in2) →
  cudaStreamSynchronize stream [sched] (call op out in1 in2 len stream d) = Some d' →
  (∀ p, ¬ (out ≤ p < out + len) → global d' !! p = global d !! p) ∧
  (∀ q, disjoint out q len = true → contents (global d') q len = contents (global d) q len).
Proof.
  intros Hidle Hal Hsync.
  destruct (call_kernel op out in1 in2 len stream)
    as (k & Hcall & <- & Hdest & Hrf & _).
  rewrite Hcall in Hsync.
  destruct (launch_sound d d' stream k sched Hidle (Hrf Hal) Hsync) as [_ Hframe].
  assert (Hout : ∀ p, ¬ (out ≤ p < out + k_len k) → global d' !! p = global d !! p).
  { intros p Hp. apply Hframe. intros i Hi. rewrite Hdest. lia. }
  split; [done|]. intros q Hq. unfold contents.
  apply list_fmap_ext. intros n i Hi%lookup_seqZ.
  apply Hout. unfold disjoint in Hq. lia.
Qed.
End Chains.

Lemma call_writes_only_output_witness :
  contents (global dev0_checked) 0 4 = contents (global dev0) 0 4.
Proof.
  refine (proj2 (call_writes_only_output (A := double_arith)
                   EltwiseDivideCheckZero dev0 dev0_checked
                   8 0 4 4 0%nat sched0 _ _ _) 0 _);
    try (repeat constructor); vm_compute; reflexivity.
Defined.

(** ** Scalar operations and constant buffers *)

Section Constant.
Context {math_t : Type} {A : Arith math_t}.
Implicit Types (d : device math_t) (m : gmap Z math_t).

(** A unary and a binary call that compute the same value at every index
    leave the same memory. *)
Lemma map_zip_agree d out in_ c len (f : math_t → option math_t)
    (g : math_t → math_t → option math_t) v stream sched1 sched2 :
  idle d stream →
  allocated (global d) out len = true →
  allocated (global d) in_ len = true →
  alias_ok out in_ len = true → alias_ok out c len = true →
  (∀ i, 0 ≤ i < len → global d !! (c + i) = Some v) →
  (∀ x, is_Some (f x)) → (∀ x, g x v = f x) →
  ∃ d1 d2,
    cudaStreamSynchronize stream [sched1] (unaryOp out in_ len f stream d) = Some d1 ∧
    cudaStreamSynchronize stream [sched2] (binaryOp out in_ c len g stream d) = Some d2 ∧
    global d1 = global d2.
Proof.
  intros Hidle Ho Hi Hal Hac Hc Hf Hg.
  destruct (unaryOp_ok d out in_ len f stream sched1)
    as (d1 & Hsync1 & Hout1 & Hframe1); [done..|by eauto|].
  destruct (binaryOp_ok d out in_ c len g stream sched2)
    as (d2 & Hsync2 & Hout2 & Hframe2); [done|done|done| |done|done| |].
  - apply allocated_spec. intros i Hr. rewrite (Hc i Hr). eauto.
  - intros i a b Hr Ha Hb. rewrite (Hc i Hr) in Hb. injection Hb as <-.
    rewrite Hg. apply Hf.
  - exists d1, d2. split_and!; [done..|]. apply map_eq. intros p.
    destruct (decide (out ≤ p < out + len)) as [Hp|Hp].
    + replace p with (out + (p - out)) by lia.
      assert (Hr : 0 ≤ p - out < len) by lia.
      rewrite allocated_spec in Hi. destruct (Hi _ Hr) as [x Hx].
      by rewrite (Hout1 _ x Hr Hx), (Hout2 _ x v Hr Hx (Hc _ Hr)), Hg.
    + by rewrite Hframe1, Hframe2.
Qed.

(** X3: scalarAdd with scalar [s] leaves the memory that eltwiseAdd leaves
    when its second input is a buffer filled with [s]; likewise
    scalarMultiply and eltwiseMultiply.  This holds in every element
    type and under any two schedules. *)
Theorem scalar_as_constant_buffer d out in_ c scalar len stream sched1 sched2 :
  idle d stream →
  allocated (global d) out len = true →
  allocated (global d) in_ len = true →
  alias_ok out in_ len = true → alias_ok out c len = true →
  (∀ i, 0 ≤ i < len → global d !! (c + i) = Some scalar) →
  (∃ d1 d2,
     cudaStreamSynchronize stream [sched1]
       (scalarAdd out in_ scalar len stream d) = Some d1 ∧
     cudaStreamSynchronize stream [sched2]
       (eltwiseAdd out in_ c len stream d) = Some d2 ∧
     global d1 = global d2) ∧
  (∃ d1 d2,
     cudaStreamSynchronize stream [sched1]
       (scalarMultiply out in_ scalar len stream d) = Some d1 ∧
     cudaStreamSynchronize stream [sched2]
       (eltwiseMultiply out in_ c len stream d) = Some d2 ∧
     global d1 = global d2).
Proof.
  intros. split; eapply map_zip_agree; eauto.
Qed.
End Constant.

Lemma scalar_as_constant_buffer_witness :
  ∃ d1 d2,
    cudaStreamSynchronize 0%nat [schedu]
      (scalarAdd (A := unsigned_arith) 0 0 10 3 0%nat devo) = Some d1 ∧
    cudaStreamSynchronize 0%nat [schedu]
      (eltwiseAdd (A := unsigned_arith) 0 0 3 3 0%nat devo) = Some d2 ∧
    global d1 = global d2.
Proof.
  apply (scalar_as_constant_buffer (A := unsigned_arith)
           devo 0 0 3 10 3 0%nat schedu schedu);
    try (vm_compute; reflexivity).
  intros i Hi.
  assert (i = 0 ∨ i = 1 ∨ i = 2) as [->|[->| ->]] by lia; reflexivity.
Defined.

(** ** Allocation is kept *)

Section Allocation.
Context {math_t : Type}.
Implicit Types (d : device math_t) (m : gmap Z math_t).

Lemma launch_preserves_cells d d' stream (k : kernel math_t) sched :
  idle d stream → race_free k →
  cudaStreamSynchronize stream [sched] (enqueue stream k d) = Some d' →
  ∀ p, is_Some (global d' !! p) ↔ is_Some (global d !! p).
Proof.
  intros Hidle Hrf Hsync p.
  assert (Hrun : run_kernel k sched (global d) = Some (global d')).
  { rewrite sync_enqueue in Hsync by done.
    destruct (run_kernel k sched (global d)); [simpl in Hsync|done].
    by injection Hsync as <-. }
  pose proof (run_kernel_defined k (global d) Hrf sched _ Hrun) as Hdef.
  destruct (run_kernel_sound k (global d) Hrf sched _ Hrun) as [Hout Hframe].
  destruct (dest_dec k p) as [(i & Hi & ->)|Hn].
  - rewrite (Hout i Hi). destruct (Hdef i Hi). tauto.
  - by rewrite Hframe.
Qed.

Lemma allocated_transfer m m' q n :
  (∀ p, is_Some (m' !! p) ↔ is_Some (m !! p)) →
  allocated m q n = true → allocated m' q n = true.
Proof.
  intros Hiff. rewrite !allocated_spec. intros H i Hi. apply Hiff, H, Hi.
Qed.

Lemma binaryOp_preserves_allocated d d' out in1 in2 len
    (op : math_t → math_t → option math_t) stream sched q n :
  idle d stream →
  alias_ok out in1 len = true → alias_ok out in2 len = true →
  cudaStreamSynchronize stream [sched]
    (binaryOp out in1 in2 len op stream d) = Some d' →
  allocated (global d) q n = true → allocated (global d') q n = true.
Proof.
  intros Hidle Ha1 Ha2 Hsync. apply allocated_transfer.
  by apply (launch_preserves_cells d d' stream _ sched Hidle
              (binaryOp_race_free out in1 in2 len op Ha1 Ha2)).
Qed.

Lemma unaryOp_preserves_allocated d d' out in_ len
    (op : math_t → option math_t) stream sched q n :
  idle d stream →
  alias_ok out in_ len = true →
  cudaStreamSynchronize stream [sched] (unaryOp out in_ len op stream d) = Some d' →
  allocated (global d) q n = true → allocated (global d') q n = true.
Proof.
  intros Hidle Ha1 Hsync. apply allocated_transfer.
  by apply (launch_preserves_cells d d' stream _ sched Hidle
              (unaryOp_race_free out in_ len op Ha1)).
Qed.
End Allocation.

(** ** The 32-bit unsigned element type *)

Lemma zip_post_ext {math_t} (d d' : device math_t) out in1 in2 len f g :
  (∀ i a b, 0 ≤ i < len → global d !! (in1 + i) = Some a →
     global d !! (in2 + i) = Some b → f a b = g a b) →
  zip_post d d' out in1 in2 len f → zip_post d d' out in1 in2 len g.
Proof.
  intros Hfg Hpost i a b Hi Ha Hb. rewrite <- (Hfg i a b Hi Ha Hb). by apply Hpost.
Qed.

(** X4: in the integer type, eltwiseDivideCheckZero completes on all
    inputs, zero divisors included, and leaves [0] where the divisor is 0
    and the quotient elsewhere, whatever the native division by zero
    would yield: it never divides by zero. *)
Theorem checked_division_never_divides_by_zero (div0 : Z → option Z)
    (d : device Z) out in1 in2 len stream sched :
  idle d stream →
  allocated (global d) out len = true →
  allocated (global d) in1 len = true →
  allocated (global d) in2 len = true →
  alias_ok out in1 len = true → alias_ok out in2 len = true →
  ∃ d', cudaStreamSynchronize stream [sched]
          (eltwiseDivideCheckZero (A := unsigned_arith_with div0)
             out in1 in2 len stream d) = Some d' ∧
        zip_post d d' out in1 in2 len (λ a b, Some (if b =? 0 then 0 else a / b)).
Proof.
  intros Hidle Ho H1 H2 Ha1 Ha2.
  destruct (zip_completes d out in1 in2 len
              (λ a b, if b =? 0 then Some 0 else if b =? 0 then div0 a else Some (a / b))
              stream sched) as (d' & Hsync & Hpost); [done..| |].
  { intros i a b _ _ _. destruct (b =? 0); eauto. }
  exists d'. split; [done|]. eapply zip_post_ext; [|exact Hpost].
  intros i a b _ _ _. simpl. by destruct (b =? 0).
Qed.

Lemma checked_division_never_divides_by_zero_witness :
  ∃ d', cudaStreamSynchronize 0%nat [schedu]
          (eltwiseDivideCheckZero (A := unsigned_arith_with (λ _, None))
             6 0 3 3 0%nat devu) = Some d' ∧
        zip_post devu d' 6 0 3 3 (λ a b, Some (if b =? 0 then 0 else a / b)).
Proof.
  apply (checked_division_never_divides_by_zero (λ _, None) devu 6 0 3 3 0%nat schedu);
    vm_compute; reflexivity.
Defined.

(** X5: in [unsigned], eltwiseAdd(t, a, b) followed on the same stream by
    eltwiseSub(out, t, b) gives back [a], also where [a[i] + b[i]] wraps
    around, and also in place ([t] and [out] may be [a]); [t] must not
    overlap [b]. *)
Theorem unsigned_add_sub_round_trip (d : device Z) t out a b len stream s1 s2 :
  idle d stream →
  allocated (global d) t len = true → allocated (global d) out len = true →
  allocated (global d) a len = true → allocated (global d) b len = true →
  alias_ok t a len = true → disjoint t b len = true →
  alias_ok out t len = true → alias_ok out b len = true →
  (∀ i x, 0 ≤ i < len → global d !! (a + i) = Some x →
     wf (Arith := unsigned_arith) x = true) →
  ∃ d2, cudaStreamSynchronize stream [s1; s2]
          (eltwiseSub (A := unsigned_arith) out t b len stream
             (eltwiseAdd (A := unsigned_arith) t a b len stream d)) = Some d2 ∧
        map_post d d2 out a len Some.
Proof.
  intros Hidle Ht Ho Ha Hb Hta Htb Hot Hob Hwf.
  assert (Htb' : alias_ok t b len = true).
  { unfold alias_ok, disjoint in *. lia. }
  destruct (binaryOp_ok d t a b len (λ x y, Some (wrap32 (x + y))) stream s1)
    as (d1 & Hsync1 & Hout1 & Hframe1); [done..|by eauto|].
  pose proof (idle_after_sync _ _ _ _ Hsync1) as Hidle1.
  assert (Hkeep : ∀ q n, allocated (global d) q n = true →
                         allocated (global d1) q n = true).
  { intros q n.
    by apply (binaryOp_preserves_allocated d d1 t a b len
                (λ x y, Some (wrap32 (x + y))) stream s1). }
  destruct (binaryOp_ok d1 out t b len (λ x y, Some (wrap32 (x - y))) stream s2)
    as (d2 & Hsync2 & Hout2 & _); [by auto..|by eauto|].
  exists d2. split.
  - change (cudaStreamSynchronize stream [s1; s2]
              (binaryOp out t b len (λ x y, Some (wrap32 (x - y))) stream
                 (binaryOp t a b len (λ x y, Some (wrap32 (x + y))) stream d))
            = Some d2).
    unfold binaryOp in *. by rewrite sync_enqueue_two, Hsync1.
  - intros i x Hi Hx.
    rewrite allocated_spec in Hb. destruct (Hb i Hi) as [y Hy].
    rewrite (Hout2 i (wrap32 (x + y)) y Hi).
    + f_equal. unfold wrap32. rewrite Zminus_mod_idemp_l.
      replace (x + y - y) with x by lia. by apply wrap32_small, (Hwf i).
    + by apply Hout1.
    + rewrite Hframe1; [done|]. unfold disjoint in Htb. lia.
Qed.

Lemma unsigned_add_sub_round_trip_witness :
  ∃ d2, cudaStreamSynchronize 0%nat [schedu; schedu]
          (eltwiseSub (A := unsigned_arith) 0 0 3 3 0%nat
             (eltwiseAdd (A := unsigned_arith) 0 0 3 3 0%nat devw)) = Some d2 ∧
        map_post devw d2 0 0 3 Some.
Proof.
  apply (unsigned_add_sub_round_trip devw 0 0 0 3 3 0%nat schedu schedu);
    [vm_compute; reflexivity..|].
  intros i x Hi Hx.
  assert (i = 0 ∨ i = 1 ∨ i = 2) as [->|[->| ->]] by lia;
    vm_compute in Hx; injection Hx as <-; reflexivity.
Defined.

(** ** Chained scalar operations *)

Section ScalarChains.
Context {math_t : Type} {A : Arith math_t}.
Implicit Types (d : device math_t).

(** Two maps chained on a stream compute the composition. *)
Lemma unaryOp_chain d t out in_ len (f g : math_t → math_t) stream sch1 sch2 :
  idle d stream →
  allocated (global d) t len = true → allocated (global d) out len = true →
  allocated (global d) in_ len = true →
  alias_ok t in_ len = true → alias_ok out t len = true →
  ∃ d2, cudaStreamSynchronize stream [sch1; sch2]
          (unaryOp out t len (λ x, Some (g x)) stream
             (unaryOp t in_ len (λ x, Some (f x)) stream d)) = Some d2 ∧
        map_post d d2 out in_ len (λ x, Some (g (f x))).
Proof.
  intros Hidle Ht Ho Hi Hti Hot.
  destruct (unaryOp_ok d t in_ len (λ x, Some (f x)) stream sch1)
    as (d1 & Hsync1 & Hout1 & Hframe1); [done..|by eauto|].
  pose proof (idle_after_sync _ _ _ _ Hsync1) as Hidle1.
  assert (Hkeep : ∀ q n, allocated (global d) q n = true →
                         allocated (global d1) q n = true).
  { intros q n.
    by apply (unaryOp_preserves_allocated d d1 t in_ len
                (λ x, Some (f x)) stream sch1). }
  destruct (unaryOp_ok d1 out t len (λ x, Some (g x)) stream sch2)
    as (d2 & Hsync2 & Hout2 & _); [by auto..|by eauto|].
  exists d2. split.
  - unfold unaryOp in *. by rewrite sync_enqueue_two, Hsync1.
  - intros i x Hr Hx. apply Hout2; [done|]. by apply Hout1.
Qed.

(** X6: scalarAdd(t, in, s1) followed on the same stream by
    scalarMultiply(out, t, s2) leaves [out[i] = (in[i] + s1) * s2], in
    every element type; [t] may be [in] and [out] may be [t]. *)
Theorem scalarAdd_then_scalarMultiply d t out in_ s1 s2 len stream sch1 sch2 :
  idle d stream →
  allocated (global d) t len = true → allocated (global d) out len = true →
  allocated (global d) in_ len = true →
  alias_ok t in_ len = true → alias_ok out t len = true →
  ∃ d2, cudaStreamSynchronize stream [sch1; sch2]
          (scalarMultiply out t s2 len stream
             (scalarAdd t in_ s1 len stream d)) = Some d2 ∧
        map_post d d2 out in_ len (λ x, Some ((x + s1) * s2)%M).
Proof.
  intros. by apply (unaryOp_chain d t out in_ len (λ x, (x + s1)%M) (λ x, (x * s2)%M)).
Qed.
End ScalarChains.

Lemma scalarAdd_then_scalarMultiply_witness :
  ∃ d2, cudaStreamSynchronize 0%nat [sched0; sched1]
          (scalarMultiply (A := double_arith) 8 8 (dbl 3 (-1)) 4 0%nat
             (scalarAdd (A := double_arith) 8 0 (dbl 1 0) 4 0%nat dev0)) = Some d2 ∧
        map_post dev0 d2 8 0 4
          (λ x, Some (SFmul 53 1024 (SFadd 53 1024 x (dbl 1 0)) (dbl 3 (-1)))).
Proof.
  apply (scalarAdd_then_scalarMultiply (A := double_arith)
           dev0 8 8 0 (dbl 1 0) (dbl 3 (-1)) 4 0%nat sched0 sched1);
    vm_compute; reflexivity.
Defined.

(** X7: in [unsigned], two scalarAdd calls chained on a stream leave what
    one scalarAdd with the sum of the scalars leaves, and two
    scalarMultiply calls what one with the product leaves, wrap-around
    included. *)
Theorem unsigned_scalar_ops_fuse (d : device Z) t out in_ s1 s2 len stream sch1 sch2 :
  idle d stream →
  allocated (global d) t len = true → allocated (global d) out len = true →
  allocated (global d) in_ len = true →
  alias_ok t in_ len = true → alias_ok out t len = true →
  alias_ok out in_ len = true →
  (∃ d2 d3,
     cudaStreamSynchronize stream [sch1; sch2]
       (scalarAdd (A := unsigned_arith) out t s2 len stream
          (scalarAdd (A := unsigned_arith) t in_ s1 len stream d)) = Some d2 ∧
     cudaStreamSynchronize stream [sch1]
       (scalarAdd (A := unsigned_arith) out in_ (wrap32 (s1 + s2)) len stream d)
     = Some d3 ∧
     contents (global d2) out len = contents (global d3) out len) ∧
  (∃ d2 d3,
     cudaStreamSynchronize stream [sch1; sch2]
       (scalarMultiply (A := unsigned_arith) out t s2 len stream
          (scalarMultiply (A := unsigned_arith) t in_ s1 len stream d)) = Some d2 ∧
     cudaStreamSynchronize stream [sch1]
       (scalarMultiply (A := unsigned_arith) out in_ (wrap32 (s1 * s2)) len stream d)
     = Some d3 ∧
     contents (global d2) out len = contents (global d3) out len).
Proof.
  intros Hidle Ht Ho Hi Hti Hot Hoi.
  split.
  - destruct (unaryOp_chain d t out in_ len (λ x, wrap32 (x + s1))
                (λ x, wrap32 (x + s2)) stream sch1 sch2)
      as (d2 & Hsync2 & Hpost2); [done..|].
    destruct (unaryOp_ok d out in_ len (λ x, Some (wrap32 (x + wrap32 (s1 + s2))))
                stream sch1) as (d3 & Hsync3 & Hpost3 & _); [done..|by eauto|].
    exists d2, d3. split_and!; [done..|].
    apply list_fmap_ext. intros n i Hr%lookup_seqZ.
    rewrite allocated_spec in Hi. destruct (Hi i) as [x Hx]; [lia|].
    rewrite (Hpost2 i x), (Hpost3 i x) by (done || lia). f_equal.
    unfold wrap32. rewrite Zplus_mod_idemp_l, Zplus_mod_idemp_r. f_equal. lia.
  - destruct (unaryOp_chain d t out in_ len (λ x, wrap32 (x * s1))
                (λ x, wrap32 (x * s2)) stream sch1 sch2)
      as (d2 & Hsync2 & Hpost2); [done..|].
    destruct (unaryOp_ok d out in_ len (λ x, Some (wrap32 (x * wrap32 (s1 * s2))))
                stream sch1) as (d3 & Hsync3 & Hpost3 & _); [done..|by eauto|].
    exists d2, d3. split_and!; [done..|].
    apply list_fmap_ext. intros n i Hr%lookup_seqZ.
    rewrite allocated_spec in Hi. destruct (Hi i) as [x Hx]; [lia|].
    rewrite (Hpost2 i x), (Hpost3 i x) by (done || lia). f_equal.
    unfold wrap32. rewrite Zmult_mod_idemp_l, Zmult_mod_idemp_r. f_equal. lia.
Qed.

Lemma unsigned_scalar_ops_fuse_witness :
  ∃ d2 d3,
    cudaStreamSynchronize 0%nat [schedu; schedu]
      (scalarAdd (A := unsigned_arith) 6 6 4294967290 3 0%nat
         (scalarAdd (A := unsigned_arith) 6 0 9 3 0%nat devw)) = Some d2 ∧
    cudaStreamSynchronize 0%nat [schedu]
      (scalarAdd (A := unsigned_arith) 6 0 (wrap32 (9 + 4294967290)) 3 0%nat devw)
    = Some d3 ∧
    contents (global d2) 6 3 = contents (global d3) 6 3.
Proof.
  apply (unsigned_scalar_ops_fuse devw 6 6 0 9 4294967290 3 0%nat schedu schedu);
    vm_compute; reflexivity.
Defined.

(** ** Values stay representable *)

Lemma wrap32_wf z : wf (Arith := unsigned_arith) (wrap32 z) = true.
Proof.
  simpl. unfold wrap32.
  pose proof (Z.mod_pos_bound z (2 ^ 32) ltac:(lia)). apply andb_true_iff. lia.
Qed.

Lemma unsigned_div_wf a b :
  wf (Arith := unsigned_arith) a = true → wf (Arith := unsigned_arith) b = true →
  b ≠ 0 → wf (Arith := unsigned_arith) (a / b) = true.
Proof.
  simpl. intros [Ha1 Ha2]%andb_true_iff [Hb1 Hb2]%andb_true_iff Hb.
  apply andb_true_iff. split.
  - apply Z.leb_le, Z.div_pos; lia.
  - apply Z.ltb_lt. apply Z.le_lt_trans with a; [|lia].
    apply Z.div_le_upper_bound; nia.
Qed.

Ltac in_output_range out len p Hp :=
  destruct (decide (out ≤ p < out + len)) as [Hp|Hp].

(** X8: in [unsigned], when every cell of the memory holds a value in
    [0, 2^32) and so does the scalar, every cell still does after any of
    the seven operations has completed. *)
Theorem unsigned_values_stay_in_range (op : operation Z) (d d' : device Z)
    out in1 in2 len stream sched :
  idle d stream →
  Forall (λ inp, alias_ok out inp len = true) (inputs op in1 in2) →
  scalar_wf (A := unsigned_arith) op = true →
  all_wf (A := unsigned_arith) (global d) →
  cudaStreamSynchronize stream [sched]
    (call (A := unsigned_arith) op out in1 in2 len stream d) = Some d' →
  all_wf (A := unsigned_arith) (global d').
Proof.
  intros Hidle Hal Hsc Hwf Hsync p v Hv.
  assert (Hold : ∀ q x, global d !! q = Some x →
                        wf (Arith := unsigned_arith) x = true)
    by (intros q x; apply Hwf).
  assert (Hcell : (∀ i, 0 ≤ i < len → ∀ w, global d' !! (out + i) = Some w →
                     wf (Arith := unsigned_arith) w = true) ∧
                  (∀ q, ¬ (out ≤ q < out + len) → global d' !! q = global d !! q)).
  { destruct op; simpl in Hsync, Hal, Hsc.
    1,2: apply Forall_cons in Hal as [Ha1 _];
      destruct (unaryOp_sound d d' out in1 len _ stream sched Hidle Ha1 Hsync)
        as [Hout Hframe]; (split; [|done]); intros i Hi w Hw;
      rewrite (Hout i Hi) in Hw;
      destruct (global d !! (in1 + i)) as [x|]; [simpl in Hw|done];
      injection Hw as <-; apply wrap32_wf.
    all: apply Forall_cons in Hal as [Ha1 [Ha2 _]%Forall_cons];
      destruct (binaryOp_sound d d' out in1 in2 len _ stream sched
                  Hidle Ha1 Ha2 Hsync) as [Hout Hframe];
      (split; [|done]); intros i Hi w Hw; rewrite (Hout i Hi) in Hw;
      destruct (global d !! (in1 + i)) as [x|] eqn:Hx; [simpl in Hw|done];
      destruct (global d !! (in2 + i)) as [y|] eqn:Hy; [simpl in Hw|done].
    1-3: injection Hw as <-; apply wrap32_wf.
    - destruct (y =? 0) eqn:Hz; [done|]. injection Hw as <-.
      apply unsigned_div_wf; eauto. by apply Z.eqb_neq.
    - destruct (y =? 0) eqn:Hz; [by injection Hw as <-|].
      injection Hw as <-. apply unsigned_div_wf; eauto. by apply Z.eqb_neq. }
  destruct Hcell as [Hout Hframe].
  in_output_range out len p Hp.
  - apply (Hout (p - out)); [lia|]. by replace (out + (p - out)) with p by lia.
  - rewrite Hframe in Hv by done. eauto.
Qed.


Lemma unsigned_values_stay_in_range_witness :
  all_wf (A := unsigned_arith) (global devu_sub).
Proof.
  apply (unsigned_values_stay_in_range EltwiseSub devu devu_sub
           6 3 0 3 0%nat schedu);
    [reflexivity|repeat constructor|reflexivity| |vm_compute; reflexivity].
  unfold all_wf. apply (bool_decide_unpack _). vm_compute. reflexivity.
Defined.

(** ** More of IEEE arithmetic *)

Section MoreIEEE.
Variables prec emax : Z.

Lemma SFsub_self x :
  SFsub prec emax x x = if is_finite x then S754_zero false else S754_nan.
Proof.
  destruct x as [[]|[]| |s m e]; try reflexivity.
  unfold SFsub. by rewrite Z.sub_diag.
Qed.

Lemma shr_1_nonneg mrs : 0 ≤ shr_m mrs → 0 ≤ shr_m (shr_1 mrs).
Proof. destruct mrs as [[|[p|p|]|p] r s]; simpl; lia. Qed.

Lemma shr_nonneg mrs e n : 0 ≤ shr_m mrs → 0 ≤ shr_m (shr mrs e n).1.
Proof.
  intros H. destruct n as [|p|p]; simpl; try done.
  rewrite iter_pos_nat. induction (Pos.to_nat p) as [|k IH]; simpl; [done|].
  by apply shr_1_nonneg.
Qed.

Lemma shr_fexp_nonneg m e l : 0 ≤ m → 0 ≤ shr_m (shr_fexp prec emax m e l).1.
Proof.
  intros H. unfold shr_fexp. apply shr_nonneg. by destruct l as [|[]].
Qed.

Lemma round_nearest_even_nonneg m l : 0 ≤ m → 0 ≤ round_nearest_even m l.
Proof. intros H. destruct l as [|[]]; simpl; try done; [destruct (Z.even m)|]; lia. Qed.

Lemma binary_round_aux_not_nan sx mx ex lx :
  0 ≤ mx → binary_round_aux prec emax sx mx ex lx ≠ S754_nan.
Proof.
  intros H. unfold binary_round_aux.
  pose proof (shr_fexp_nonneg mx ex lx H) as H1.
  destruct (shr_fexp prec emax mx ex lx) as [mrs' e']. simpl in H1.
  pose proof (shr_fexp_nonneg _ e' loc_Exact
                (round_nearest_even_nonneg _ (loc_of_shr_record mrs') H1)) as H2.
  destruct (shr_fexp prec emax _ e' loc_Exact) as [mrs'' e'']. simpl in H2.
  destruct (shr_m mrs'') as [|p|p]; [done| |lia].
  by destruct (e'' <=? emax - prec).
Qed.

Lemma SFdiv_not_nan a b :
  is_finite a = true → is_finite b = true → SFeqb b (S754_zero false) = false →
  SFdiv prec emax a b ≠ S754_nan.
Proof.
  destruct a as [sa| | |sa ma ea], b as [sb| | |sb mb eb]; try done; intros _ _ _.
  unfold SFdiv, SFdiv_core_binary.
  set (m' := match _ with Z.pos _ => _ | _ => _ end).
  assert (Hm : 0 ≤ m').
  { subst m'. destruct (_ - _ - _) as [|p|p]; try done. by apply Z.shiftl_nonneg. }
  destruct (Z.div_eucl m' (Z.pos mb)) as [q r] eqn:Hq.
  apply binary_round_aux_not_nan.
  assert (q = m' / Z.pos mb) as -> by (unfold Z.div; by rewrite Hq).
  apply Z.div_pos; lia.
Qed.

Lemma SFmul_pow2_signed sx sy mx ex k :
  bounded prec emax mx ex = true →
  SFmul prec emax (S754_finite sx mx ex)
    (S754_finite sy (Pos.iter xO 1%positive k) (- Zpos k))
  = S754_finite (xorb sx sy) mx ex.
Proof.
  intros Hb. pose proof (SFmul_pow2 prec emax (xorb sx sy) mx ex k Hb) as H.
  unfold SFmul in *. by rewrite xorb_false_r in H.
Qed.
End MoreIEEE.

Lemma SFmul_neg_one_double x :
  valid_binary 53 1024 x = true →
  SFmul 53 1024 x (SFopp (SFone 53 1024)) = SFopp x.
Proof.
  destruct x as [[]|[]| |sx mx ex]; try reflexivity.
  intros Hb.
  etransitivity; [exact (SFmul_pow2_signed 53 1024 sx true mx ex 52 Hb)|].
  simpl. by rewrite xorb_true_r.
Qed.

Lemma SFmul_neg_one_float x :
  valid_binary 24 128 x = true →
  SFmul 24 128 x (SFopp (SFone 24 128)) = SFopp x.
Proof.
  destruct x as [[]|[]| |sx mx ex]; try reflexivity.
  intros Hb.
  etransitivity; [exact (SFmul_pow2_signed 24 128 sx true mx ex 23 Hb)|].
  simpl. by rewrite xorb_true_r.
Qed.

Lemma SFsub_add_opp prec emax x y :
  SFsub prec emax x y = SFadd prec emax x (SFopp y).
Proof.
  destruct x as [[]|[]| |sx mx ex], y as [[]|[]| |sy my ey]; try reflexivity.
  unfold SFsub, SFadd, SFopp. f_equal.
  destruct sy; simpl; lia.
Qed.

(** X9: eltwiseSub(out, a, a), also in place, leaves 0 at every index in
    [unsigned]; in the IEEE types it leaves +0.0 where [a[i]] is zero or
    finite and NaN where it is an infinity or NaN. *)
Theorem eltwiseSub_self :
  (∀ (d : device Z) out a len stream sched,
     idle d stream →
     allocated (global d) out len = true → allocated (global d) a len = true →
     alias_ok out a len = true →
     ∃ d', cudaStreamSynchronize stream [sched]
             (eltwiseSub (A := unsigned_arith) out a a len stream d) = Some d' ∧
           map_post d d' out a len (λ _, Some 0)) ∧
  (∀ prec emax (d : device spec_float) out a len stream sched,
     idle d stream →
     allocated (global d) out len = true → allocated (global d) a len = true →
     alias_ok out a len = true →
     ∃ d', cudaStreamSynchronize stream [sched]
             (eltwiseSub (A := ieee_arith prec emax) out a a len stream d) = Some d' ∧
           map_post d d' out a len
             (λ x, Some (if is_finite x then S754_zero false else S754_nan))).
Proof.
  split.
  - intros d out a len stream sched Hidle Ho Ha Hal.
    destruct (binaryOp_ok d out a a len (λ x y, Some (wrap32 (x - y))) stream sched)
      as (d' & Hsync & Hout & _); [done..|by eauto|].
    exists d'. split; [done|]. intros i x Hi Hx.
    rewrite (Hout i x x Hi Hx Hx). by rewrite Z.sub_diag.
  - intros prec emax d out a len stream sched Hidle Ho Ha Hal.
    destruct (binaryOp_ok d out a a len (λ x y, Some (SFsub prec emax x y))
                stream sched) as (d' & Hsync & Hout & _); [done..|by eauto|].
    exists d'. split; [done|]. intros i x Hi Hx.
    rewrite (Hout i x x Hi Hx Hx). by rewrite SFsub_self.
Qed.

Lemma eltwiseSub_self_witness :
  ∃ d', cudaStreamSynchronize 0%nat [sched0]
          (eltwiseSub (A := double_arith) 0 0 0 4 0%nat dev0) = Some d' ∧
        map_post dev0 d' 0 0 4
          (λ x, Some (if is_finite x then S754_zero false else S754_nan)).
Proof.
  apply (proj2 eltwiseSub_self 53 1024 dev0 0 0 4 0%nat sched0);
    vm_compute; reflexivity.
Defined.

(** X10: in the IEEE types, eltwiseDivideCheckZero on buffers that hold
    neither NaN nor an infinity never leaves a NaN: the guard takes the
    one case, [0 / 0], in which the quotient of two such values is NaN. *)
Theorem checked_division_no_nan prec emax (d : device spec_float)
    out in1 in2 len stream sched :
  idle d stream →
  allocated (global d) out len = true →
  allocated (global d) in1 len = true →
  allocated (global d) in2 len = true →
  alias_ok out in1 len = true → alias_ok out in2 len = true →
  (∀ i x, 0 ≤ i < len → global d !! (in1 + i) = Some x → is_finite x = true) →
  (∀ i x, 0 ≤ i < len → global d !! (in2 + i) = Some x → is_finite x = true) →
  ∃ d', cudaStreamSynchronize stream [sched]
          (eltwiseDivideCheckZero (A := ieee_arith prec emax)
             out in1 in2 len stream d) = Some d' ∧
    ∀ i, 0 ≤ i < len →
      ∃ v, global d' !! (out + i) = Some v ∧ v ≠ S754_nan.
Proof.
  intros Hidle Ho H1 H2 Ha1 Ha2 Hf1 Hf2.
  destruct (binaryOp_ok d out in1 in2 len
              (λ a b, if SFeqb b (S754_zero false) then Some (S754_zero false)
                      else Some (SFdiv prec emax a b)) stream sched)
    as (d' & Hsync & Hout & _); [done..| |].
  { intros i a b _ _ _. destruct (SFeqb b _); eauto. }
  exists d'. split; [done|]. intros i Hi.
  rewrite allocated_spec in H1, H2.
  destruct (H1 i Hi) as [a Ha], (H2 i Hi) as [b Hb].
  rewrite (Hout i a b Hi Ha Hb).
  destruct (SFeqb b (S754_zero false)) eqn:Hz; eexists; (split; [done|]); [done|].
  apply SFdiv_not_nan; eauto.
Qed.

Lemma checked_division_no_nan_witness :
  ∃ d', cudaStreamSynchronize 0%nat [sched0]
          (eltwiseDivideCheckZero (A := double_arith) 8 0 4 4 0%nat dev0) = Some d' ∧
    ∀ i, 0 ≤ i < 4 → ∃ v, global d' !! (8 + i) = Some v ∧ v ≠ S754_nan.
Proof.
  apply (checked_division_no_nan 53 1024 dev0 8 0 4 4 0%nat sched0);
    [vm_compute; reflexivity..| |];
    intros i x Hi Hx;
    (assert (i = 0 ∨ i = 1 ∨ i = 2 ∨ i = 3) as [->|[->|[->| ->]]] by lia);
    vm_compute in Hx; injection Hx as <-; reflexivity.
Defined.

(** X11: in [float] and [double], eltwiseSub(out, a, b) leaves in [out]
    what scalarMultiply(t, b, -1) followed on the same stream by
    eltwiseAdd(out, a, t) leaves, for all values of [a] (NaN, infinities
    and signed zeros included) and all valid values of [b]; [t] must not
    overlap [a]. *)
Theorem sub_as_negate_then_add (A : Arith spec_float) (d : device spec_float)
    t out a b len stream sch1 sch2 sch3 :
  A = float_arith ∨ A = double_arith →
  idle d stream →

  allocated (global d) t len = true → allocated (global d) out len = true →
  allocated (global d) a len = true → allocated (global d) b len = true →
  alias_ok t b len = true → disjoint t a len = true →
  alias_ok out a len = true → alias_ok out t len = true →
  alias_ok out b len = true →
  (∀ i y, 0 ≤ i < len → global d !! (b + i) = Some y → wf y = true) →
  ∃ d2 d3,
    cudaStreamSynchronize stream [sch1; sch2]
      (eltwiseAdd out a t len stream
         (scalarMultiply t b (SFopp one) len stream d)) = Some d2 ∧
    cudaStreamSynchronize stream [sch3]
      (eltwiseSub out a b len stream d) = Some d3 ∧
    contents (global d2) out len = contents (global d3) out len.
Proof.
  intros HA Hidle Ht Ho Ha Hb Htb Hta Hoa Hot Hob Hwf.
  destruct (unaryOp_ok d t b len (λ y, Some (y * SFopp one)%M) stream sch1)
    as (d1 & Hsync1 & Hout1 & Hframe1); [done..|by eauto|].
  pose proof (idle_after_sync _ _ _ _ Hsync1) as Hidle1.
  assert (Hkeep : ∀ q n, allocated (global d) q n = true →
                         allocated (global d1) q n = true).
  { intros q n.
    by apply (unaryOp_preserves_allocated d d1 t b len
                (λ y, Some (y * SFopp one)%M) stream sch1). }
  destruct (binaryOp_ok d1 out a t len (λ x y, Some (x + y)%M) stream sch2)
    as (d2 & Hsync2 & Hout2 & _); [by auto..|by eauto|].
  destruct (binaryOp_ok d out a b len (λ x y, Some (x - y)%M) stream sch3)
    as (d3 & Hsync3 & Hout3 & _); [done..|by eauto|].
  exists d2, d3. split_and!.
  - unfold eltwiseAdd, scalarMultiply, binaryOp, unaryOp in *.
    by rewrite sync_enqueue_two, Hsync1.
  - done.
  - apply list_fmap_ext. intros n i Hr%lookup_seqZ.
    assert (Hi : 0 ≤ i < len) by lia.
    rewrite allocated_spec in Ha, Hb.
    destruct (Ha i Hi) as [x Hx], (Hb i Hi) as [y Hy].
    rewrite (Hout3 i x y Hi Hx Hy).
    rewrite (Hout2 i x (y * SFopp one)%M Hi).
    + f_equal. specialize (Hwf i y Hi Hy).
      destruct HA as [-> | ->]; simpl in *.
      * by rewrite SFmul_neg_one_float, SFsub_add_opp.
      * by rewrite SFmul_neg_one_double, SFsub_add_opp.
    + rewrite Hframe1; [done|]. unfold disjoint in Hta. lia.
    + by apply Hout1.
Qed.

Lemma sub_as_negate_then_add_witness :
  ∃ d2 d3,
    cudaStreamSynchronize 0%nat [sched1; sched0]
      (eltwiseAdd (A := double_arith) 8 0 4 4 0%nat
         (scalarMultiply (A := double_arith) 4 4 (SFopp (SFone 53 1024)) 4 0%nat dev0))
    = Some d2 ∧
    cudaStreamSynchronize 0%nat [sched0]
      (eltwiseSub (A := double_arith) 8 0 4 4 0%nat dev0) = Some d3 ∧
    contents (global d2) 8 4 = contents (global d3) 8 4.
Proof.
  apply (sub_as_negate_then_add double_arith dev0 4 8 0 4 4 0%nat
           sched1 sched0 sched0);
    [by right|vm_compute; reflexivity..|].
  intros i x Hi Hx.
  assert (i = 0 ∨ i = 1 ∨ i = 2 ∨ i = 3) as [->|[->|[->| ->]]] by lia;
    vm_compute in Hx; injection Hx as <-; reflexivity.
Defined.
